(** * Hyperparameter-optimisation workshop: grid search and GP conditioning

    A shallow embedding of the two computational kernels of the workshop
    notebooks:

    - [Lab00.ipynb]: [get_param_grid] (exhaustive grid over a dictionary of
      candidate lists) and [get_random_grid] (random search through
      [random.choices]);
    - [Lab01.ipynb]: [exponential_cov] (squared-exponential kernel),
      [conditional] (Gaussian conditioning) and [predict].

    The code around them is embedded as well: [load_mnist], [train] and
    [get_best_run] of [Lab00.ipynb], and the [train] and [test] loops of the
    Ray Tune notebook, with the network, its optimiser and the permutation
    drawn by NumPy as parameters.

    Python dictionaries are association lists in insertion order, Python
    exceptions are an error monad, the random generator is threaded as
    explicit state, and NumPy arrays of doubles are MathComp matrices over
    the real numbers: the values are idealised, every arithmetic operation
    is the exact one. What rounding decides beyond the values, whether
    [np.linalg.inv] meets a zero pivot and raises, is a parameter of the
    model. *)

From HB Require Import structures.
From Stdlib Require Import Reals Lra ClassicalEpsilon FunctionalExtensionality.
From Stdlib Require Import ZArith Lia String.
From mathcomp Require Import boot ssralg matrix mxalgebra.

Set Implicit Arguments.
Unset Strict Implicit.
Unset Printing Implicit Defensive.

Delimit Scope R_scope with real.
Delimit Scope N_scope with num.
Delimit Scope Z_scope with int.

(** ** The real numbers as a MathComp field

    The matrix library needs its coefficients to form a field structure;
    the operations are the ones of the Standard Library, so that [exp] and
    the order of [R] remain available. *)

Module RealField.

Definition eqr (x y : R) : bool := if Req_dec_T x y then true else false.

Lemma eqrP : Equality.axiom eqr.
Proof. by move=> x y; rewrite /eqr; case: Req_dec_T => h; constructor. Qed.

HB.instance Definition _ := hasDecEq.Build R eqrP.

Definition pickr (P : pred R) (n : nat) : option R :=
  let x := epsilon (inhabits 0%real) (fun x => P x : Prop) in
  if P x then Some x else None.

Lemma pickr_some P n x : pickr P n = Some x -> P x.
Proof. by rewrite /pickr; case: ifP => // Px [<-]. Qed.

Lemma pickr_ex (P : pred R) : (exists x, P x) -> exists n, pickr P n.
Proof.
move=> exP; exists 0%N; rewrite /pickr.
by rewrite (epsilon_spec (inhabits 0%real) (fun x => P x : Prop) exP).
Qed.

Lemma pickr_ext (P Q : pred R) : P =1 Q -> pickr P =1 pickr Q.
Proof. by move=> eqPQ n; have -> // : P = Q; exact: functional_extensionality. Qed.

HB.instance Definition _ := hasChoice.Build R pickr_some pickr_ex pickr_ext.

Lemma RplusA : associative Rplus.
Proof. by move=> x y z; rewrite Rplus_assoc. Qed.

Lemma RmultA : associative Rmult.
Proof. by move=> x y z; rewrite Rmult_assoc. Qed.

Lemma R1_neq0 : R1 != R0.
Proof. exact/eqP/R1_neq_R0. Qed.

HB.instance Definition _ :=
  GRing.isZmodule.Build R RplusA Rplus_comm Rplus_0_l Rplus_opp_l.

HB.instance Definition _ :=
  GRing.Zmodule_isComNzRing.Build R RmultA Rmult_comm Rmult_1_l
    Rmult_plus_distr_r R1_neq0.

Lemma RmultVr (x : R) : x != 0%real -> (/ x * x)%real = 1%real.
Proof. by move/eqP => nz; rewrite Rinv_l. Qed.

HB.instance Definition _ := GRing.ComNzRing_isField.Build R RmultVr Rinv_0.

End RealField.
Export RealField.

(** ** Python exceptions *)

Inductive exn : Type := ValueError | IndexError | LinAlgError.

Inductive result (T : Type) : Type :=
  | Ok of T
  | Raise of exn.

Arguments Ok {T} _.
Arguments Raise {T} _.

Definition bind (S T : Type) (r : result S) (f : S -> result T) : result T :=
  match r with
  | Ok x => f x
  | Raise e => Raise e
  end.

Notation "x <- r ;; k" := (bind r (fun x => k))
  (at level 100, r at next level, right associativity).

Definition raises (T : Type) (r : result T) : bool :=
  if r is Raise _ then true else false.

(** Parameter names are Python strings. *)

HB.instance Definition _ := hasDecEq.Build string String.eqb_spec.

(** ** Lab 0: the parameter grid *)

Section ParamGrid.

(** [V] is the type of hyperparameter values (numbers, optimiser classes,
    loss instances), of which only equality is used. *)
Variable V : eqType.

(** A [dict] keeps its items in insertion order; in a dictionary of the
    program a key occurs once, which nothing below depends on. *)
Definition dict (T : Type) : Type := seq (string * T).

(** [d[k] = v]: an existing key keeps its position, a new one is appended. *)
Fixpoint dict_set (T : Type) (d : dict T) (k : string) (v : T) : dict T :=
  match d with
  | [::] => [:: (k, v)]
  | (k', v') :: d' =>
      if k' == k then (k, v) :: d' else (k', v') :: dict_set d' k v
  end.

(** [dict(pairs)] *)
Definition dict_of (T : Type) (pairs : seq (string * T)) : dict T :=
  foldl (fun d kv => dict_set d kv.1 kv.2) [::] pairs.

Definition experiment : Type := dict V.

(** [keys, values = zip( *params.items())]: the transposition of the item
    list yields the tuple of keys and the tuple of values; of an empty
    dictionary it yields nothing, and the unpacking into two names raises
    [ValueError]. *)
Definition unpack_items (params : dict (seq V)) :
    result (seq string * seq (seq V)) :=
  if params is [::] then Raise ValueError
  else Ok (unzip1 params, unzip2 params).

(** [itertools.product( *pools)], as the library documents it:
    [result = [[]]; for pool in pools:
       result = [x+[y] for x in result for y in pool]]. *)
Definition product (pools : seq (seq V)) : seq (seq V) :=
  foldl (fun res pool => [seq rcons x y | x <- res, y <- pool]) [:: [::]] pools.

Definition get_param_grid (params : dict (seq V)) : result (seq experiment) :=
  kv <- unpack_items params ;;
  let keys := kv.1 in
  let values := kv.2 in
  let experiments := [seq dict_of (zip keys v) | v <- product values] in
  Ok experiments.

End ParamGrid.

Arguments dict_of {T} pairs.
Arguments dict_set {T} d k v.

(** ** Lab 0: random search *)

(** [random.random()] returns the double [m / 2^53] for a 53-bit integer
    [m]; the generator state is the stream of the integers still to be
    drawn, with the position reached. *)
Record rng : Type := Rng { rng_stream : nat -> N; rng_pos : nat }.

Definition random (g : rng) : N * rng :=
  ((rng_stream g (rng_pos g) mod 2 ^ 53)%num, Rng (rng_stream g) (rng_pos g).+1).

(** [floor(random() * n)] for [random() = m / 2^53], the product being
    taken exactly. *)
Definition floor_scaled (m : N) (n : nat) : nat :=
  N.to_nat ((m * N.of_nat n) / 2 ^ 53)%num.

(** [s[i]] for an index that is not negative. *)
Definition getitem (T : Type) (s : seq T) (i : nat) : result T :=
  if drop i s is x :: _ then Ok x else Raise IndexError.

(** The comprehension
    [[population[floor(random() * n)] for i in _repeat(None, k)]]
    of [random.choices], run [k] times. *)
Fixpoint choices_loop (T : Type) (population : seq T) (k : nat) (g : rng) :
    result (seq T) * rng :=
  if k is k'.+1 then
    let: (m, g1) := random g in
    match getitem population (floor_scaled m (size population)) with
    | Ok x =>
        let: (r, g2) := choices_loop population k' g1 in
        (xs <- r ;; Ok (x :: xs), g2)
    | Raise e => (Raise e, g1)
    end
  else (Ok [::], g).

(** [random.choices(population, k=k)]; [repeat] with a negative count
    yields nothing. The count is taken within the range of a C [ssize_t],
    [-2^63 <= k < 2^63], outside of which [repeat] raises
    [OverflowError]. *)
Definition choices (T : Type) (population : seq T) (k : Z) (g : rng) :
    result (seq T) * rng :=
  choices_loop population (Z.to_nat k) g.

Definition get_random_grid (V : eqType) (params : dict (seq V)) (n : Z)
    (g : rng) : result (seq (experiment V)) * rng :=
  match get_param_grid params with
  | Ok experiments => choices experiments n g
  | Raise e => (Raise e, g)
  end.

(** ** Example inputs

    The space of the specification's scenario, the space without
    parameters, and a generator. *)

Definition example_space : dict (seq nat) :=
  [:: ("a"%string, [:: 1; 2]); ("b"%string, [:: 10; 20])].

Definition empty_space : dict (seq nat) := [::].

Definition example_rng : rng :=
  Rng (fun i => (N.of_nat i * 3000000000000000)%num) 0.

(** ** Lab 1: Gaussian-process conditioning *)

Section GaussianProcess.

Local Open Scope ring_scope.

(** The kernel parameters: the code reads [theta[0]] and [theta[1]] and
    nothing else of [theta]. *)
Record theta : Type := Theta { theta0 : R; theta1 : R }.

(** [exponential_cov] on two numbers (zero-dimensional arguments). *)
Definition exponential_cov0 (x y : R) (th : theta) : R :=
  (theta0 th * exp (- 0.5 * theta1 th * (x - y) ^ 2))%real.

(** [exponential_cov] on two lists: [np.subtract.outer] pairs every entry of
    [x] with every entry of [y]. *)
Definition exponential_cov (x y : seq R) (th : theta) :
    'M[R]_(size x, size y) :=
  \matrix_(i, j) exponential_cov0 (nth 0 x i) (nth 0 y j) th.

(** [np.linalg.inv] factorises its argument in doubles and raises
    [LinAlgError] when the factorisation meets a pivot that is exactly
    zero. Rounding decides whether it does, also for a matrix that has an
    inverse: [singular_in_doubles] is a parameter of the model. *)
Variable singular_in_doubles : forall n : nat, 'M[R]_n -> bool.

(** The empty (0 x 0) array is returned as it is; the only pivot of a matrix
    with one entry is that entry. *)
Definition zero_pivot (n : nat) : 'M[R]_n -> bool :=
  match n return 'M[R]_n -> bool with
  | 0 => fun=> false
  | 1 => fun A => A ord0 ord0 == 0
  | _ => fun A => singular_in_doubles A
  end.

(** [np.linalg.inv]; the matrix that it returns is taken to be the
    inverse. *)
Definition inv (n : nat) (A : 'M[R]_n) : result 'M[R]_n :=
  if zero_pivot A then Raise LinAlgError else Ok (invmx A).

(** A list read as a one-dimensional array of length [n]. *)
Definition colvec (n : nat) (y : seq R) : 'cV[R]_n := \col_i nth 0 y i.
Definition rowvec (n : nat) (y : seq R) : 'rV[R]_n := \row_j nth 0 y j.

(** [A.dot(y)] for a two-dimensional [A] and a list [y]: the shapes must
    agree; a sum over an empty axis is zero. *)
Definition dot1 (m n : nat) (A : 'M[R]_(m, n)) (y : seq R) :
    result 'cV[R]_m :=
  if size y == n then Ok (A *m colvec n y) else Raise ValueError.

(** [u.dot(t)] for a one-dimensional [u] and a list [t]: a number. *)
Definition vdot (n : nat) (u : 'rV[R]_n) (t : seq R) : result R :=
  if size t == n then Ok ((u *m colvec n t) ord0 ord0) else Raise ValueError.

(** What [squeeze] returns: axes of length one are dropped. *)
Inductive ndarray : Type :=
  | Scalar of R
  | Vector (n : nat) of 'cV[R]_n
  | Matrix (m n : nat) of 'M[R]_(m, n).

Definition squeeze1 (n : nat) : 'cV[R]_n -> ndarray :=
  match n return 'cV[R]_n -> ndarray with
  | 1 => fun v => Scalar (v ord0 ord0)
  | _ => fun v => Vector v
  end.

Definition squeeze2 (m n : nat) : 'M[R]_(m, n) -> ndarray :=
  match m, n return 'M[R]_(m, n) -> ndarray with
  | 1, 1 => fun A => Scalar (A ord0 ord0)
  | 1, _ => fun A => Vector A^T
  | _, 1 => fun A => Vector A
  | _, _ => fun A => Matrix A
  end.

Definition conditional (x_new x y : seq R) (params : theta) :
    result (ndarray * ndarray) :=
  let Sigma_xy := exponential_cov x_new x params in
  let Sigma_y := exponential_cov x x params in
  let Sigma_x := exponential_cov x_new x_new params in
  Sinv <- inv Sigma_y ;;
  mu <- dot1 (Sinv *m Sigma_xy^T)^T y ;;
  Sinv' <- inv Sigma_y ;;
  let sigma := Sigma_x - Sigma_xy *m (Sinv' *m Sigma_xy^T) in
  Ok (squeeze1 mu, squeeze2 sigma).

Definition predict (x : R) (data : seq R) (kernel : R -> R -> theta -> R)
    (params : theta) (sigma : 'M[R]_(size data)) (t : seq R) :
    result (R * R) :=
  let k := [seq kernel x y params | y <- data] in
  Sinv <- inv sigma ;;
  y_pred <- vdot (rowvec (size data) k *m Sinv) t ;;
  kSk <- vdot (rowvec (size data) k *m Sinv) k ;;
  let sigma_new := kernel x x params - kSk in
  Ok (y_pred, sigma_new).

(** Symmetric and positive-definite matrices, as the specification means
    them for an observed covariance matrix. *)
Definition symmetric (n : nat) (A : 'M[R]_n) : Prop := A^T = A.

Definition posdef (n : nat) (A : 'M[R]_n) : Prop :=
  forall v : 'rV[R]_n, v != 0 -> (0 < (v *m A *m v^T) ord0 ord0)%real.

End GaussianProcess.

Arguments predict singular_in_doubles x data kernel params sigma t :
  clear implicits.

(** The parameters [[1, 10]] that the notebook uses. *)
Definition theta_lab : theta := Theta 1%real 10%real.

(** ** Specification-level notions *)

Section OdometerSpec.

Variable V : eqType.

(** The nested loops that the specification describes: the first pool is
    the outermost loop, the last pool the innermost. *)
Fixpoint odometer (pools : seq (seq V)) : seq (seq V) :=
  if pools is p :: ps then [seq x :: t | x <- p, t <- odometer ps]
  else [:: [::]].

(** Positional reading: wheel [j] advances once every [stride pools j]
    steps, and wraps around after [size] of its pool. *)
Definition stride (pools : seq (seq V)) (j : nat) : nat :=
  \prod_(p <- drop j.+1 pools) size p.

Definition odometer_digit (pools : seq (seq V)) (i j : nat) : nat :=
  (i %/ stride pools j) %% size (nth [::] pools j).

Definition odometer_reading (pools : seq (seq V)) (i : nat) (v : seq V) : Prop :=
  size v = size pools /\
  forall j x0, j < size pools ->
    nth x0 v j = nth x0 (nth [::] pools j) (odometer_digit pools i j).

End OdometerSpec.

(** ** Exponential sums

    [expsum l t] is the sum of [c * exp (b * t)] over the pairs [(c, b)] of
    [l]; [dexpsum l] is its derivative and [shift_exponents b0 l] divides
    it by [exp (b0 * t)]. They serve to show that the covariance matrix of
    distinct inputs is invertible. *)

Section ExpSumDefs.

Local Open Scope R_scope.

Definition Rltb (x y : R) : bool := if Rlt_dec x y then true else false.
Definition Rleb (x y : R) : bool := if Rle_dec x y then true else false.

Fixpoint expsum (l : seq (R * R)) (t : R) : R :=
  if l is cb :: l' then cb.1 * exp (cb.2 * t) + expsum l' t else 0.

Definition dexpsum (l : seq (R * R)) : seq (R * R) :=
  [seq (cb.1 * cb.2, cb.2) | cb <- l].

Definition shift_exponents (b0 : R) (l : seq (R * R)) : seq (R * R) :=
  [seq (cb.1, cb.2 - b0) | cb <- l].

End ExpSumDefs.

(** ** Lab 0: choosing the best run *)

Section BestRun.

(** [A] is the type of the accuracies, compared with [>] and [==];
    [E] the type of the experiments. *)
Variables (A : eqType) (gt : rel A) (E : Type).

(** [max(s)]: the first of the largest items; [ValueError] on an empty
    list. *)
Definition py_max (s : seq A) : result A :=
  if s is x :: s' then Ok (foldl (fun m y => if gt y m then y else m) x s')
  else Raise ValueError.

(** [s.index(v)]: the first position of [v]; [ValueError] when absent. *)
Definition list_index (s : seq A) (v : A) : result nat :=
  if v \in s then Ok (index v s) else Raise ValueError.

Definition get_best_run (acc_hist : seq A) (experiments : seq E)
    (verbose : bool) : result (A * E) :=
  highest_acc <- py_max acc_hist ;;
  highest_acc_idx <- list_index acc_hist highest_acc ;;
  best <- getitem experiments highest_acc_idx ;;
  Ok (highest_acc, best).

End BestRun.

(** ** Lab 0: the training loop *)

(** The further exceptions of the loading and training code. *)
Inductive error : Type :=
  | Builtin of exn
  | ZeroDivisionError
  | AssertionError.

(** [range(0, stop, step)]: [ValueError] for a zero step, nothing for a
    negative one. *)
Definition py_range (stop : nat) (step : Z) : result (seq nat) :=
  match step with
  | Z0 => Raise ValueError
  | Zneg _ => Ok [::]
  | Zpos _ =>
      let b := Z.to_nat step in
      Ok [seq i * b | i <- iota 0 ((stop + b - 1) %/ b)]
  end.

(** No progress line raises: nothing is printed, or [iterations] is not 0. *)
Definition prints_safely (verbose : bool) (iterations : Z) : Prop :=
  verbose = false \/ iterations <> 0%int.

Section Train.

(** [net] is the state that a step changes (the weights of the network and
    the state of the optimiser); [step] is one pass of the loop body,
    [zero_grad], forward pass, loss, [backward] and [optimizer.step], and
    returns [loss.item()] with the new state. *)
Variables (net sample label : Type).
Variable step : net -> seq sample -> seq label -> net * R.

(** The values that a progress line prints. *)
Record progress : Type := Progress {
  p_epoch : Z; p_max_epochs : Z; p_samples : Z; p_samples_per_epoch : Z;
  p_loss : R }.

(** What a run of the loop has done: the state of the network, the loss
    history and the lines printed. *)
Record trained : Type := Trained {
  t_net : net; t_loss_hist : seq R; t_printed : seq progress }.

(** The body of the inner loop for the mini-batch that starts at [index]. *)
Definition train_batch (batch_size : Z) (train_X : seq sample)
    (train_y : seq label) (max_epochs : Z) (verbose : bool) (iterations : Z)
    (epoch index : nat) (st : trained) : trained * option error :=
  let b := Z.to_nat batch_size in
  let images := take b (drop index train_X) in
  let labels := take b (drop index train_y) in
  let: (net', loss) := step (t_net st) images labels in
  let st' := Trained net' (rcons (t_loss_hist st) loss) (t_printed st) in
  if verbose then
    if (iterations =? 0)%int then (st', Some ZeroDivisionError)
    else if (Z.of_nat index mod iterations =? 0)%int then
      let line :=
        Progress (Z.of_nat epoch + 1) max_epochs (Z.of_nat index + iterations)
          (Z.of_nat (size train_X)) loss in
      (Trained net' (t_loss_hist st') (rcons (t_printed st') line), None)
    else (st', None)
  else (st', None).

(** A [for] loop whose body may raise. *)
Fixpoint for_each (I S : Type) (body : I -> S -> S * option error)
    (items : seq I) (st : S) : S * option error :=
  if items is i :: items' then
    let: (st', err) := body i st in
    if err is Some e then (st', Some e) else for_each body items' st'
  else (st, None).

Definition train_epoch (batch_size : Z) (train_X : seq sample)
    (train_y : seq label) (max_epochs : Z) (verbose : bool) (iterations : Z)
    (epoch : nat) (st : trained) : trained * option error :=
  match py_range (size train_X) batch_size with
  | Raise e => (st, Some (Builtin e))
  | Ok indices =>
      for_each
        (train_batch batch_size train_X train_y max_epochs verbose iterations
           epoch)
        indices st
  end.

(** [train]: the loss history when the loop ends, the exception when it is
    interrupted, and in both cases what has been done to the network and
    printed. *)
Definition train (net0 : net) (batch_size : Z) (train_X : seq sample)
    (train_y : seq label) (max_epochs : Z) (verbose : bool) (iterations : Z) :
    trained * option error :=
  for_each
    (train_epoch batch_size train_X train_y max_epochs verbose iterations)
    (iota 0 (Z.to_nat max_epochs)) (Trained net0 [::] [::]).

(** The mini-batches that an epoch over [n] samples slices out of [s]. *)
Definition batches (T : Type) (n batch_size : nat) (s : seq T) :
    seq (seq T) :=
  [seq take batch_size (drop (i * batch_size) s)
  | i <- iota 0 ((n + batch_size - 1) %/ batch_size)].

End Train.

(** ** Lab 0: splitting the training data *)

Section LoadMnist.

Variables (sample label : Type).

(** [int(n * train_fraction)], a product of doubles: a parameter of the
    model, since the rounding of the product decides the integer. *)
Variable int_scaled : nat -> R -> nat.

(** [a[idx]] for an array [idx] of indices that are not negative:
    [IndexError] when one of them is not a row of [a]. *)
Definition take_rows (T : Type) (a : seq T) (idx : seq nat) :
    result (seq T) :=
  foldr (fun i r => x <- getitem a i ;; xs <- r ;; Ok (x :: xs)) (Ok [::]) idx.

(** What [load_mnist] returns, and the sizes that it prints. *)
Record mnist : Type := Mnist {
  m_train_X : seq sample; m_train_y : seq label;
  m_valid_X : seq sample; m_valid_y : seq label;
  m_test_X : seq sample; m_test_y : seq label;
  m_printed : seq nat }.

(** [load_mnist] on the four arrays that it loads; [indices] is what
    [np.random.permutation(train_X.shape[0])] returns. The conversions to
    tensors keep the rows as they are. *)
Definition load_mnist (train_fraction : R) (verbose : bool)
    (train_X : seq sample) (train_y : seq label) (test_X : seq sample)
    (test_y : seq label) (indices : seq nat) : mnist + error :=
  if ~~ (Rleb 0 train_fraction && Rleb train_fraction 1) then
    inr AssertionError
  else
    let training_size := int_scaled (size train_X) train_fraction in
    let training_idx := take training_size indices in
    let valid_idx := drop training_size indices in
    let split :=
      train_X' <- take_rows train_X training_idx ;;
      valid_X <- take_rows train_X valid_idx ;;
      train_y' <- take_rows train_y training_idx ;;
      valid_y <- take_rows train_y valid_idx ;;
      Ok (Mnist train_X' train_y' valid_X valid_y test_X test_y
            (if verbose then
               [:: size train_X'; size train_y'; size valid_X; size valid_y;
                   size test_X; size test_y]
             else [::])) in
    match split with
    | Ok r => inl r
    | Raise e => inr (Builtin e)
    end.

End LoadMnist.

(** ** The Ray Tune notebook: one epoch of training, and the accuracy *)

Module Tune.

Definition EPOCH_SIZE : nat := 1024.
Definition TEST_SIZE : nat := 256.

Section Loops.

(** A batch of the loader is the list of its samples with their targets;
    [step] is the body of the training loop ([zero_grad], forward pass,
    [nll_loss], [backward], [optimizer.step]) and [predicted] the class
    with the largest output. *)
Variables (model sample : Type) (label : eqType).
Variable step : model -> seq (sample * label) -> model.
Variable predicted : model -> sample -> label.

Fixpoint train_loop (limit batch_idx : nat)
    (train_loader : seq (seq (sample * label))) (m : model) : model :=
  if train_loader is batch :: rest then
    if limit < batch_idx * size batch then m
    else train_loop limit batch_idx.+1 rest (step m batch)
  else m.

Definition train (m : model) (train_loader : seq (seq (sample * label))) :
    model :=
  train_loop EPOCH_SIZE 0 train_loader m.

Fixpoint test_loop (m : model) (limit batch_idx : nat)
    (data_loader : seq (seq (sample * label))) (correct total : nat) :
    nat * nat :=
  if data_loader is batch :: rest then
    if limit < batch_idx * size batch then (correct, total)
    else
      test_loop m limit batch_idx.+1 rest
        (correct + count (fun dt => predicted m dt.1 == dt.2) batch)
        (total + size batch)
  else (correct, total).

(** [correct / total] is taken exactly. *)
Definition test (m : model) (data_loader : seq (seq (sample * label))) :
    R + error :=
  let: (correct, total) := test_loop m TEST_SIZE 0 data_loader 0 0 in
  if total == 0 then inr ZeroDivisionError
  else inl (INR correct / INR total)%real.

(** The batches that a loop with the bound [limit] goes through, from the
    batch number [batch_idx] on. *)
Fixpoint processed (limit batch_idx : nat)
    (loader : seq (seq (sample * label))) : seq (seq (sample * label)) :=
  if loader is batch :: rest then
    if limit < batch_idx * size batch then [::]
    else batch :: processed limit batch_idx.+1 rest
  else [::].

End Loops.

End Tune.

(** ** Further example inputs

    A stand-in for the training step, whose state counts the samples seen
    and whose loss is the number of labels of the batch; the exact product
    for [int(n * train_fraction)]; a stand-in for the step of the Ray Tune
    notebook, a classifier that answers with its input, and a loader with
    three batches of 512 samples. For [np.linalg.inv], a factorisation that
    loses to rounding every determinant of at most [2^-53], with two
    matrices that have an inverse and such a determinant: the covariance
    matrix of the inputs [1] and [1 + 2^-30], and the matrix
    [[[5, 1], [1, 0.2]]], whose last entry is the double nearest to
    [0.2]. *)

Definition counting_step (nt : nat) (images labels : seq nat) : nat * R :=
  (nt + size images, INR (size labels)).

Definition exact_int_scaled (n : nat) (train_fraction : R) : nat :=
  Z.to_nat (Int_part (INR n * train_fraction)).

Definition counting_batch_step (m : nat) (batch : seq (nat * nat)) : nat :=
  m + size batch.

Definition echo_class (m : nat) (x : nat) : nat := x.

Definition example_loader : seq (seq (nat * nat)) :=
  nseq 3 (nseq 512 (0, 1)).

Definition det_lost_to_rounding (n : nat) (A : 'M[R]_n) : bool :=
  Rleb (Rabs (\det A)%R) (/ 2 ^ 53).

Definition close_inputs : seq R := [:: 1%real; (1 + / 2 ^ 30)%real].

Definition double_of_fifth : R := (3602879701896397 / 2 ^ 54)%real.

Definition sigma_lost : 'M[R]_2 :=
  \matrix_(i, j)
    nth 0%real
      (nth [::] [:: [:: 5%real; 1%real]; [:: 1%real; double_of_fifth]] i) j.

(** * Properties *)

Import GRing.Theory.

(** ** The parameter grid *)

Section ParamGridTheory.

Variable V : eqType.
Implicit Types (pools : seq (seq V)) (params : dict (seq V)).

Lemma size_product_from (res : seq (seq V)) pools :
  size (foldl (fun res pool => [seq rcons x y | x <- res, y <- pool]) res pools)
  = (size res * \prod_(p <- pools) size p)%N.
Proof.
elim: pools res => [|p ps IH] res /=; first by rewrite big_nil muln1.
by rewrite IH size_allpairs big_cons mulnA.
Qed.

Lemma size_product pools : size (product pools) = \prod_(p <- pools) size p.
Proof. by rewrite /product size_product_from mul1n. Qed.

Lemma product_from_odometer (res : seq (seq V)) pools :
  foldl (fun res pool => [seq rcons x y | x <- res, y <- pool]) res pools
  = [seq r ++ t | r <- res, t <- odometer pools].
Proof.
elim: pools res => [|p ps IH] res /=.
  by elim: res => [|r res IHr] //=; rewrite cats0 -?IHr.
rewrite {}IH; elim: res => [|r res IHr]; first by [].
rewrite [in LHS]allpairs_cons allpairs_cat [in RHS]allpairs_cons {}IHr.
congr (_ ++ _); rewrite allpairs_mapl map_allpairs.
by apply: eq_allpairs => x t; rewrite cat_rcons.
Qed.

Lemma product_odometer pools : product pools = odometer pools.
Proof.
rewrite /product product_from_odometer /= cats0.
by elim: (odometer pools) => [|t s IH] //=; rewrite IH.
Qed.


Lemma nth_allpairs (S T U : Type) (f : S -> T -> U) (x0 : S) (y0 : T) (z0 : U)
    (s : seq S) (t : seq T) (i : nat) :
  i < size s * size t ->
  nth z0 [seq f x y | x <- s, y <- t] i
  = f (nth x0 s (i %/ size t)) (nth y0 t (i %% size t)).
Proof.
elim: s i => [|x s IH] i //; rewrite allpairs_cons nth_cat size_map => lt_i.
case: ltnP => [lt_it|le_ti].
  by rewrite (nth_map y0) // divn_small // modn_small.
have t_gt0 : 0 < size t by case: (size t) lt_i => //; rewrite muln0.
have lt_i' : i - size t < size s * size t.
  by rewrite ltn_subLR // -mulSn.
rewrite (IH _ lt_i') -{3 4}(subnK le_ti) addnC.
by rewrite modnDl divnDl ?dvdnn // divnn t_gt0.
Qed.

Lemma stride_cons p pools j : stride (p :: pools) j.+1 = stride pools j.
Proof. by []. Qed.

Lemma stride0 p pools : stride (p :: pools) 0 = \prod_(q <- pools) size q.
Proof. by rewrite /stride /= drop0. Qed.

Lemma prod_size_split pools j :
  j < size pools ->
  \prod_(p <- pools) size p
  = (\prod_(p <- take j pools) size p
     * (size (nth [::] pools j) * stride pools j))%N.
Proof.
move=> lt_j; rewrite -{1}(cat_take_drop j pools) big_cat /=.
by rewrite (drop_nth [::] lt_j) big_cons.
Qed.

Lemma digit_mod (a m s i : nat) :
  0 < s -> ((i %% (a * (m * s))) %/ s) %% m = (i %/ s) %% m.
Proof.
move=> s_gt0; rewrite {2}(divn_eq i (a * (m * s))).
by rewrite !mulnA divnMDl // -mulnA modnMDl.
Qed.

Lemma odometer_readingP pools i :
  i < \prod_(p <- pools) size p ->
  odometer_reading pools i (nth [::] (odometer pools) i).
Proof.
elim: pools i => [|p ps IH] i.
  by rewrite big_nil ltnS leqn0 => /eqP->; split.
rewrite big_cons -size_product product_odometer => lt_i.
have N_gt0 : 0 < size (odometer ps).
  by case: (size (odometer ps)) lt_i => //; rewrite muln0.
have lt_q : i %/ size (odometer ps) < size p by rewrite ltn_divLR.
have [x0 _] : {x0 : V | x0 \in p}.
  by case: (p) lt_q => // x ? _; exists x; rewrite mem_head.
have lt_r : i %% size (odometer ps) < \prod_(q <- ps) size q.
  by rewrite -size_product product_odometer ltn_mod.
have [sz_v dig_v] := IH _ lt_r.
rewrite /= (nth_allpairs _ x0 [::]) //; split=> [|j y0]; first by rewrite /= sz_v.
case: j => [|j] /=.
  rewrite /odometer_digit stride0 -size_product product_odometer /=.
  by rewrite modn_small // => _; apply: set_nth_default.
rewrite ltnS => lt_j; rewrite dig_v // /odometer_digit stride_cons /=.
congr (nth _ _ _).
rewrite -product_odometer size_product (prod_size_split lt_j) digit_mod //.
move: lt_r; rewrite (prod_size_split lt_j).
by case: (stride ps j) => //; rewrite !muln0.
Qed.

End ParamGridTheory.

Section GridTheorems.

Variable V : eqType.
Implicit Types (pools : seq (seq V)) (params : dict (seq V)).

Lemma dict_set_notin (T : Type) (d : dict T) (k : string) (v : T) :
  k \notin unzip1 d -> dict_set d k v = rcons d (k, v).
Proof.
elim: d => [|[k' v'] d IH] //=; rewrite inE negb_or eq_sym.
by case/andP=> /negPf-> /IH->.
Qed.

(** Built from pairs with distinct keys, a dictionary lists these pairs. *)
Lemma dict_of_uniq (T : Type) (pairs : seq (string * T)) :
  uniq (unzip1 pairs) -> dict_of pairs = pairs.
Proof.
rewrite /dict_of -[RHS]/([::] ++ pairs) -[unzip1 pairs]/(unzip1 ([::] ++ pairs)).
elim: pairs [::] => [|[k v] s IH] d /=; first by rewrite cats0.
rewrite -cat_rcons => uniq_ds; rewrite -IH //.
congr foldl; apply: dict_set_notin.
move: uniq_ds; rewrite /unzip1 !map_cat cat_uniq map_rcons rcons_uniq.
by case/andP=> /andP[].
Qed.

Lemma get_param_gridE params :
  params != [::] ->
  get_param_grid params
  = Ok [seq dict_of (zip (unzip1 params) v) | v <- product (unzip2 params)].
Proof. by case: params. Qed.

Lemma prod_size_values params :
  \prod_(p <- unzip2 params) size p = \prod_(kv <- params) size kv.2.
Proof. by rewrite big_map. Qed.

Lemma prod_size_gt0 pools :
  all (fun p => p != [::]) pools -> 0 < \prod_(p <- pools) size p.
Proof.
elim: pools => [|p ps IH] /=; first by rewrite big_nil.
by case/andP=> p_n0 /IH ps_gt0; rewrite big_cons muln_gt0 ps_gt0 lt0n size_eq0 p_n0.
Qed.

Lemma prod_size_eq0 pools :
  has (fun p => p == [::]) pools -> \prod_(p <- pools) size p = 0.
Proof.
elim: pools => [|p ps IH] //=; rewrite big_cons.
by case/orP=> [/eqP->|/IH->]; rewrite ?muln0.
Qed.

Lemma get_param_grid_size_nonempty params :
  params != [::] ->
  exists2 experiments, get_param_grid params = Ok experiments
    & size experiments = \prod_(kv <- params) size kv.2.
Proof.
move=> /get_param_gridE->; eexists; first by [].
by rewrite size_map size_product prod_size_values.
Qed.

End GridTheorems.

Section RandomTheory.

Lemma random_lt (g : rng) : ((random g).1 < 2 ^ 53)%num.
Proof. by rewrite /random /=; apply: N.mod_upper_bound. Qed.

Lemma floor_scaled_lt (m : N) (n : nat) :
  (m < 2 ^ 53)%num -> 0 < n -> floor_scaled m n < n.
Proof.
move=> lt_m /ltP n_gt0; apply/ltP; rewrite /floor_scaled.
have : ((m * N.of_nat n) / 2 ^ 53 < N.of_nat n)%num.
  apply: N.div_lt_upper_bound => //.
  by apply N.mul_lt_mono_pos_r; [lia | exact: lt_m].
by lia.
Qed.

Lemma getitem_nth (T : Type) (x0 : T) (s : seq T) (i : nat) :
  i < size s -> getitem s i = Ok (nth x0 s i).
Proof. by move=> lt_i; rewrite /getitem (drop_nth x0 lt_i). Qed.

Lemma choices_loopS (T : Type) (population : seq T) (k : nat) (g : rng) :
  choices_loop population k.+1 g
  = match getitem population (floor_scaled (random g).1 (size population)) with
    | Ok x =>
        ((xs <- (choices_loop population k (random g).2).1 ;; Ok (x :: xs)),
         (choices_loop population k (random g).2).2)
    | Raise e => (Raise e, (random g).2)
    end.
Proof.
rewrite /=; case: (random g) => m g1 /=; case: getitem => // x.
by case: choices_loop.
Qed.

Lemma choices_loop_ok (T : eqType) (population : seq T) (k : nat) (g : rng) :
  population != [::] ->
  exists xs g', [/\ choices_loop population k g = (Ok xs, g'),
                    size xs = k & {subset xs <= population}].
Proof.
move=> pop_n0; have sz_gt0 : 0 < size population by rewrite lt0n size_eq0.
have x0 : T by case: (population) pop_n0.
elim: k g => [|k IH] g; first by exists [::], g; split.
have lt_i := floor_scaled_lt (random_lt g) sz_gt0.
rewrite choices_loopS (getitem_nth x0 lt_i).
have [xs [g2 [-> sz_xs sub_xs]]] := IH (random g).2.
eexists; eexists; split=> //=; first by rewrite sz_xs.
by move=> y; rewrite in_cons => /orP[/eqP->|/sub_xs//]; apply: mem_nth.
Qed.

Lemma choices_negative (T : Type) (population : seq T) (k : Z) (g : rng) :
  (k < 0)%int -> choices population k g = (Ok [::], g).
Proof. by rewrite /choices; case: k. Qed.

End RandomTheory.

(** ** Zeros of exponential sums

    A sum [c_1 exp(b_1 t) + ... + c_n exp(b_n t)] with distinct exponents
    and a non-zero coefficient vanishes at fewer than [n] points. *)

Section ExpSums.

Local Open Scope R_scope.

Lemma RltP x y : reflect (x < y) (Rltb x y).
Proof. by rewrite /Rltb; case: Rlt_dec => h; constructor. Qed.

Lemma RleP x y : reflect (x <= y) (Rleb x y).
Proof. by rewrite /Rleb; case: Rle_dec => h; constructor. Qed.

Lemma Rltb_trans : transitive Rltb.
Proof. by move=> y x z /RltP xy /RltP yz; apply/RltP; lra. Qed.

Lemma Rleb_trans : transitive Rleb.
Proof. by move=> y x z /RleP xy /RleP yz; apply/RleP; lra. Qed.

Lemma Rleb_total : total Rleb.
Proof.
move=> x y; apply/orP; case: (Rle_dec x y) => [le_xy|nle_xy].
  by left; apply/RleP.
by right; apply/RleP; lra.
Qed.

Lemma Rltb_neq_le x y : Rltb x y = (x != y) && Rleb x y.
Proof.
apply/RltP/andP => [lt_xy|[/eqP ne_xy /RleP le_xy]]; last by lra.
by split; [apply/eqP; lra | apply/RleP; lra].
Qed.

Lemma sorted_Rltb (s : seq R) : uniq s -> sorted Rleb s -> sorted Rltb s.
Proof.
rewrite uniq_pairwise (sorted_pairwise Rleb_trans) => uniq_s le_s.
apply: pairwise_sorted.
apply: (@sub_pairwise _ [rel x y | (x != y) && Rleb x y]).
  by move=> x y; rewrite /= Rltb_neq_le.
by rewrite pairwise_relI uniq_s.
Qed.

Lemma derivable_pt_lim_cexp (c b t : R) :
  derivable_pt_lim (fun t => c * exp (b * t)) t (c * b * exp (b * t)).
Proof.
have -> : c * b * exp (b * t) = c * (exp (b * t) * (b * 1)) by ring.
apply: (derivable_pt_lim_scal (fun t => exp (b * t))).
apply: (derivable_pt_lim_comp (fun t => b * t) exp); last exact: derivable_pt_lim_exp.
exact: (derivable_pt_lim_scal id b t 1 (derivable_pt_lim_id t)).
Qed.

Lemma derivable_pt_lim_expsum (l : seq (R * R)) (t : R) :
  derivable_pt_lim (expsum l) t (expsum (dexpsum l) t).
Proof.
elim: l => [|[c b] l IH] /=; first exact: (derivable_pt_lim_const 0).
exact: (derivable_pt_lim_plus (fun t => c * exp (b * t)) (expsum l) t _ _
          (derivable_pt_lim_cexp c b t) IH).
Qed.

Lemma expsum_shift (b0 : R) (l : seq (R * R)) (t : R) :
  expsum l t = exp (b0 * t) * expsum (shift_exponents b0 l) t.
Proof.
elim: l => [|[c b] l IH] /=; first by ring.
rewrite IH; have -> : b * t = b0 * t + (b - b0) * t by ring.
by rewrite exp_plus; ring.
Qed.

Lemma expsum_coef0 (l : seq (R * R)) (t : R) :
  ~~ has (fun cb => cb.1 != 0) l -> expsum l t = 0.
Proof.
elim: l => [|[c b] l IH] //=; rewrite negb_or negbK => /andP[/eqP-> /IH->].
by ring.
Qed.

Lemma rolle_zero (f f' : R -> R) (a b : R) :
  (forall t, derivable_pt_lim f t (f' t)) -> a < b -> f a = 0 -> f b = 0 ->
  exists2 c, a < c < b & f' c = 0.
Proof.
move=> df lt_ab fa0 fb0.
have [c [eq_c in_c]] := MVT_cor2 f f' a b lt_ab (fun t _ => df t).
exists c => //; move: eq_c; rewrite fa0 fb0 => eq_c.
have : f' c * (b - a) = 0 by lra.
by case/Rmult_integral => //; lra.
Qed.

Lemma path_Rltb_head (c z : R) (s : seq R) :
  c < z -> path Rltb z s -> path Rltb c s.
Proof.
case: s => //= y s lt_cz /andP[/RltP lt_zy ->]; rewrite andbT.
by apply/RltP; lra.
Qed.

Lemma zeros_interlace (f f' : R -> R) :
  (forall t, derivable_pt_lim f t (f' t)) ->
  forall (z : R) (zs : seq R),
    path Rltb z zs -> f z = 0 -> all (fun t => f t == 0) zs ->
    exists zs', [/\ size zs' = size zs, path Rltb z zs'
                  & all (fun t => f' t == 0) zs'].
Proof.
move=> df z zs; elim: zs z => [|z2 zs IH] z /=; first by exists [::].
case/andP=> /RltP lt_z pth fz0 /andP[/eqP fz20 zeros].
have [zs' [sz_zs' pth' zeros']] := IH z2 pth fz20 zeros.
have [c [lt_zc lt_cz2] fc0] := rolle_zero df lt_z fz0 fz20.
exists (c :: zs'); split; rewrite /= ?sz_zs' //.
  by rewrite (path_Rltb_head lt_cz2 pth') andbT; apply/RltP.
by rewrite zeros' andbT; apply/eqP.
Qed.

Lemma expsum_zeros_sorted (n : nat) (l : seq (R * R)) (zs : seq R) :
  size l = n -> uniq (unzip2 l) -> has (fun cb => cb.1 != 0) l ->
  sorted Rltb zs -> all (fun t => expsum l t == 0) zs ->
  (size zs < n)%N.
Proof.
elim: n l zs => [|n IH] l zs; first by case: l.
case: l => // [[c1 b1] l] [sz_l] /= /andP[b1_notin uniq_l] coef.
case: zs => // z zs pth /andP[/eqP z0 zeros].
pose G := fun t => c1 + expsum (shift_exponents b1 l) t.
pose l' := dexpsum (shift_exponents b1 l).
have eqG t : c1 * exp (b1 * t) + expsum l t = exp (b1 * t) * G t.
  by rewrite (expsum_shift b1 l) /G; ring.
have dG t : derivable_pt_lim G t (expsum l' t).
  have -> : expsum l' t = 0 + expsum l' t by ring.
  exact: (derivable_pt_lim_plus (fct_cte c1) _ t _ _
            (derivable_pt_lim_const c1 t) (derivable_pt_lim_expsum _ t)).
have zeroG t : c1 * exp (b1 * t) + expsum l t = 0 -> G t = 0.
  rewrite eqG; case/Rmult_integral => // exp0.
  by have := exp_pos (b1 * t); lra.
have Gz0 : G z = 0 by exact: zeroG.
have Gzeros : all (fun t => G t == 0) zs.
  by apply/allP => t /(allP zeros) /eqP /zeroG /eqP.
have [zs' [sz_zs' /path_sorted srt' zeros']] := zeros_interlace dG pth Gz0 Gzeros.
case has_l: (has (fun cb => cb.1 != 0) l); last first.
  move: z0 coef; rewrite has_l orbF (expsum_coef0 _ (negbT has_l)) => z0 /eqP c1_n0.
  have : c1 * exp (b1 * z) = 0 by lra.
  by case/Rmult_integral => // exp0; have := exp_pos (b1 * z); lra.
rewrite /= ltnS -sz_zs'; apply: (IH l') => //.
- by rewrite /l' /dexpsum /shift_exponents !size_map.
- rewrite /l' /dexpsum /shift_exponents /unzip2 -!map_comp.
  rewrite (@eq_map _ _ _ ((fun b => b - b1) \o snd)) // map_comp.
  by rewrite map_inj_uniq // => x y; lra.
- case/hasP: has_l => [[c b] cb_in /= c_n0]; apply/hasP.
  exists (c * (b - b1), b - b1); last first.
    apply/eqP; case/Rmult_integral; first by move/eqP: c_n0.
    move=> eq_b; move/negP: b1_notin; apply.
    by apply/mapP; exists (c, b) => //=; lra.
  by rewrite /l' /dexpsum /shift_exponents -map_comp; apply/mapP; exists (c, b).
Qed.

Lemma expsum_zeros (l : seq (R * R)) (zs : seq R) :
  uniq (unzip2 l) -> has (fun cb => cb.1 != 0) l ->
  uniq zs -> all (fun t => expsum l t == 0) zs ->
  (size zs < size l)%N.
Proof.
move=> uniq_l coef uniq_zs zeros; rewrite -(size_sort Rleb zs).
apply: (@expsum_zeros_sorted _ l) => //; last by rewrite all_sort.
by apply: sorted_Rltb; rewrite ?sort_uniq ?sort_sorted //; apply: Rleb_total.
Qed.

End ExpSums.

(** ** The covariance matrix *)

Section CovarianceTheory.

Local Open Scope ring_scope.

Implicit Types (x y : seq R) (th : theta).

(** The ring operations on [R] are those of the Standard Library. *)
Lemma RplusE (a b : R) : a + b = (a + b)%real. Proof. by []. Qed.
Lemma RoppE (a : R) : - a = (- a)%real. Proof. by []. Qed.
Lemma RmultE (a b : R) : a * b = (a * b)%real. Proof. by []. Qed.

Lemma Rneq (a b : R) : a <> b -> a != b.
Proof. by move=> ne_ab; apply/eqP. Qed.

Lemma Rneq0 (a : R) : (a <> 0)%real -> a != 0.
Proof. exact: Rneq. Qed.

Lemma minus_half : (- 0.5 = - / 2)%real.
Proof. by lra. Qed.

Lemma exponential_cov0E (a b : R) th :
  exponential_cov0 a b th
  = (theta0 th * exp (- / 2 * theta1 th * (a - b) ^ 2))%real.
Proof. by rewrite /exponential_cov0 minus_half. Qed.

Lemma exponential_cov0_sym (a b : R) th :
  exponential_cov0 a b th = exponential_cov0 b a th.
Proof.
rewrite /exponential_cov0; congr (_ * exp _)%real.
by ring.
Qed.

Lemma exponential_cov0_diag (a : R) th : exponential_cov0 a a th = theta0 th.
Proof.
rewrite /exponential_cov0.
have -> : (- 0.5 * theta1 th * (a - a) ^ 2 = 0)%real by ring.
by rewrite exp_0 Rmult_1_r.
Qed.

Lemma tr_exponential_cov x y th :
  (exponential_cov x y th)^T = exponential_cov y x th.
Proof. by apply/matrixP => i j; rewrite !mxE exponential_cov0_sym. Qed.

Lemma tr_rowvec (n : nat) (l : seq R) : (rowvec n l)^T = colvec n l.
Proof. by apply/matrixP => i j; rewrite !mxE. Qed.

Lemma expsum_big (l : seq (R * R)) (t : R) :
  expsum l t = \sum_(cb <- l) (cb.1 * exp (cb.2 * t))%real.
Proof. by elim: l => [|cb l IH]; rewrite ?big_nil // big_cons /= IH. Qed.

Lemma map_nth_enum x : [seq nth 0 x (val i) | i <- enum 'I_(size x)] = x.
Proof.
rewrite (map_comp (nth 0 x) val) val_enum_ord.
exact: (mkseq_nth 0 x).
Qed.

(** Distinct inputs and non-zero kernel parameters give an invertible
    covariance matrix. *)
Lemma exponential_cov_unit x th :
  uniq x -> theta0 th != 0 -> theta1 th != 0 ->
  exponential_cov x x th \in unitmx.
Proof.
move=> uniq_x /eqP th0_n0 /eqP th1_n0.
rewrite -row_free_unit -kermx_eq0; apply/rowV0P => v /sub_kermxP vK0.
apply/eqP/negPn/negP => /rV0Pn[i0 /eqP v_i0].
pose xi (i : 'I_(size x)) : R := nth 0 x (val i).
pose coef (i : 'I_(size x)) : R :=
  (v ord0 i * theta0 th * exp (- / 2 * theta1 th * xi i ^ 2))%real.
pose l := [seq (coef i, (theta1 th * xi i)%real) | i <- enum 'I_(size x)].
have sz_l : size l = size x by rewrite size_map size_enum_ord.
have uniq_l : uniq (unzip2 l).
  rewrite /unzip2 -map_comp.
  rewrite (@eq_map _ _ _ (Rmult (theta1 th) \o (fun i => nth 0 x (val i)))) //.
  rewrite map_comp map_nth_enum map_inj_uniq // => a b eq_ab.
  by apply: (Rmult_eq_reg_l (theta1 th)).
have coef_l : has (fun cb => cb.1 != 0) l.
  apply/hasP; exists (coef i0, (theta1 th * xi i0)%real).
    by apply/mapP; exists i0 => //; rewrite mem_enum.
  apply/eqP => /Rmult_integral[/Rmult_integral[]|] // exp0.
  by have := exp_pos (- / 2 * theta1 th * xi i0 ^ 2)%real; lra.
have zeros : all (fun t => expsum l t == 0) x.
  apply/allP => t /(nthP 0)[j lt_j <-]; apply/eqP.
  move/rowP/(_ (Ordinal lt_j)): vK0; rewrite !mxE => vK0.
  rewrite expsum_big big_map big_enum /=.
  pose xj : R := nth 0 x j; pose e := exp (/ 2 * theta1 th * xj ^ 2)%real.
  rewrite (eq_bigr (fun i => v ord0 i * exponential_cov x x th i (Ordinal lt_j) * e));
    last first.
    by rewrite -big_distrl /= vK0 mul0r.
  move=> i _; rewrite !mxE exponential_cov0E /coef /xi /e /xj.
  rewrite !RmultE !Rmult_assoc; congr (_ * (_ * _))%real.
  rewrite -!exp_plus; congr (exp _).
  by rewrite /=; set a := nth _ _ _; set b := nth _ _ _; field.
have := expsum_zeros uniq_l coef_l uniq_x zeros.
by rewrite sz_l ltnn.
Qed.

Lemma inv_nopivot (lu : forall n : nat, 'M[R]_n -> bool) (n : nat)
    (A : 'M[R]_n) :
  ~~ zero_pivot lu A -> inv lu A = Ok (invmx A).
Proof. by rewrite /inv => /negPf->. Qed.

Lemma zero_pivot_mx11 (lu : forall n : nat, 'M[R]_n -> bool) (A : 'M[R]_1) :
  zero_pivot lu A = (A ord0 ord0 == 0).
Proof. by []. Qed.

Lemma inv_returns (lu : forall n : nat, 'M[R]_n -> bool) (n : nat)
    (A Sinv : 'M[R]_n) :
  inv lu A = Ok Sinv -> ~~ zero_pivot lu A /\ Sinv = invmx A.
Proof. by rewrite /inv; case: (zero_pivot lu A) => // -[<-]. Qed.

Lemma posdef_unit (n : nat) (A : 'M[R]_n) : posdef A -> A \in unitmx.
Proof.
move=> pd; rewrite -row_free_unit -kermx_eq0; apply/rowV0P => v /sub_kermxP vA0.
apply/eqP/negPn/negP => /pd; rewrite vA0 mul0mx mxE.
exact: Rlt_irrefl.
Qed.

(** The quadratic form of the inverse of a symmetric positive-definite
    matrix takes no negative value. *)
Lemma posdef_inv_form (n : nat) (A : 'M[R]_n) (k : 'rV[R]_n) :
  symmetric A -> posdef A -> (0 <= (k *m invmx A *m k^T) ord0 ord0)%real.
Proof.
move=> symA pd; have unitA := posdef_unit pd.
have <- : (k *m invmx A) *m A *m (k *m invmx A)^T = k *m invmx A *m k^T.
  by rewrite trmx_mul trmx_inv symA mulmxKV // mulmxA.
have [->|/pd/Rlt_le//] := eqVneq (k *m invmx A) 0.
by rewrite !mul0mx mxE; apply: Rle_refl.
Qed.

End CovarianceTheory.

(** * The claims *)

(** ** Gaussian-process conditioning *)

Section ConditionalClaims.

Local Open Scope ring_scope.

(** Whether [np.linalg.inv] meets a zero pivot. *)
Variable lu : forall n : nat, 'M[R]_n -> bool.

(** What the code computes when [np.linalg.inv] returns and the outputs
    have the length of the inputs. *)
Lemma conditional_returns (th : theta) (x_new x y : seq R) :
  ~~ zero_pivot lu (exponential_cov x x th) -> size y = size x ->
  let Sigma_xy := exponential_cov x_new x th in
  let Sigma_y := exponential_cov x x th in
  let Sigma_x := exponential_cov x_new x_new th in
  conditional lu x_new x y th
  = Ok (squeeze1 ((invmx Sigma_y *m Sigma_xy^T)^T *m colvec (size x) y),
        squeeze2 (Sigma_x - Sigma_xy *m (invmx Sigma_y *m Sigma_xy^T))).
Proof.
move=> ok_y sz_y /=.
by rewrite /conditional (inv_nopivot ok_y) /= /dot1 sz_y eqxx.
Qed.


(** C2: without observations [conditional] returns the prior, a mean that is
    zero at every query point and the covariance matrix of the query points
    (each squeezed); no exception is raised. *)
Theorem conditional_no_observations (X : seq R) (th : theta) :
  conditional lu X [::] [::] th
  = Ok (squeeze1 (0 : 'cV[R]_(size X)), squeeze2 (exponential_cov X X th)).
Proof.
rewrite /conditional /inv /= /dot1 /=.
by rewrite !thinmx0 !mul0mx subr0.
Qed.


(** C9: the covariance matrix of a list of points with itself is
    symmetric. *)
Theorem exponential_cov_symmetric (X : seq R) (th : theta)
    (i j : 'I_(size X)) :
  exponential_cov X X th i j = exponential_cov X X th j i.
Proof. by rewrite !mxE exponential_cov0_sym. Qed.


End ConditionalClaims.

(** ** The conditioning claims on example inputs *)

Section ConditionalExamples.

Local Open Scope ring_scope.

Local Notation lost := det_lost_to_rounding.
Local Notation K1 := (exponential_cov [:: 1%real] [:: 1%real] theta_lab).
Local Notation K01 :=
  (exponential_cov [:: 0%real; 1%real] [:: 0%real; 1%real] theta_lab).
Local Notation Kclose :=
  (exponential_cov close_inputs close_inputs theta_lab).

Lemma det_mx22 (A : 'M[R]_2) :
  \det A = A ord0 ord0 * A ord_max ord_max - A ord0 ord_max * A ord_max ord0.
Proof.
rewrite (expand_det_row A ord0) !big_ord_recl big_ord0 addr0 /cofactor.
rewrite !det_mx11 !mxE /=.
have -> : lift ord0 (0 : 'I_1) = ord_max :> 'I_2 by exact: val_inj.
have -> : lift (ord_max : 'I_2) (0 : 'I_1) = ord0 by exact: val_inj.
by rewrite /bump /= expr0 expr1 mul1r mulN1r mulrN.
Qed.

Lemma exp_near_one (t : R) : (0 <= t)%real -> (1 - t <= exp (- t) <= 1)%real.
Proof.
move=> t_ge0; split; first by have := exp_ineq1_le (- t); lra.
have [->|t_n0] := Req_dec t 0; first by rewrite Ropp_0 exp_0; lra.
by rewrite -exp_0; apply/Rlt_le/exp_increasing; lra.
Qed.

(** One observed input: the pivot is [theta[0] = 1]. *)
Lemma one_input_unit : K1 \in unitmx.
Proof. by apply: exponential_cov_unit => //=; apply: Rneq0; lra. Qed.

Lemma one_input_kept : inv lost K1 = Ok (invmx K1).
Proof.
apply: inv_nopivot; rewrite zero_pivot_mx11 mxE exponential_cov0_diag.
by apply: Rneq0 => /=; lra.
Qed.

(** The inputs 0 and 1: the determinant is [1 - exp(-10)]. *)
Lemma far_inputs_kept : inv lost K01 = Ok (invmx K01).
Proof.
apply: inv_nopivot; rewrite [zero_pivot _ _]/(Rleb _ _); apply/RleP.
rewrite det_mx22 !mxE.
have -> : nth 0 [:: 0%real; 1%real] (ord0 : 'I_2) = 0%real by [].
have -> : nth 0 [:: 0%real; 1%real] (ord_max : 'I_2) = 1%real by [].
rewrite !exponential_cov0_diag -(exponential_cov0_sym 0%real) exponential_cov0E.
have -> : (- / 2 * theta1 theta_lab * (0 - 1) ^ 2 = - 5)%real.
  by rewrite /theta_lab /=; field.
have exp_ge6 := exp_ineq1_le 5; have exp_inv := exp_plus (- 5) 5.
rewrite Rplus_opp_l exp_0 in exp_inv; have exp_gt0 := exp_pos (- 5).
move: (exp (- 5)) (exp 5) exp_ge6 exp_inv exp_gt0 => e E E_ge6 eE e_gt0.
rewrite /theta_lab [theta0 _]/= RplusE RoppE 2!RmultE => le_K.
have K_small : (/ 2 ^ 53 <= / 2)%real by lra.
have := Rle_abs (1 * 1 + - (1 * e * (1 * e))).
have e_le : (e <= / 2)%real by nra.
by nra.
Qed.

(** The inputs 1 and [1 + 2^-30]: the covariance matrix has an inverse, and
    its determinant is at most [10 / 2^60]. *)
Lemma close_inputs_uniq : uniq close_inputs.
Proof. by rewrite /= andbT inE; apply: Rneq; lra. Qed.

Lemma close_inputs_unit : Kclose \in unitmx.
Proof.
by apply: exponential_cov_unit; rewrite ?close_inputs_uniq //=;
  apply: Rneq0; lra.
Qed.

Lemma close_inputs_lost : zero_pivot lost Kclose.
Proof.
rewrite [zero_pivot _ _]/(Rleb _ _); apply/RleP; rewrite det_mx22 !mxE.
have -> : nth 0 close_inputs (ord0 : 'I_2) = 1%real by [].
have -> : nth 0 close_inputs (ord_max : 'I_2) = (1 + / 2 ^ 30)%real by [].
rewrite !exponential_cov0_diag -(exponential_cov0_sym 1%real) exponential_cov0E.
have -> : (- / 2 * theta1 theta_lab * (1 - (1 + / 2 ^ 30)) ^ 2
           = - (5 * (/ 2 ^ 30) ^ 2))%real by rewrite /theta_lab /=; field.
have := @exp_near_one (5 * (/ 2 ^ 30) ^ 2)%real.
have d_ge0 : (0 <= 5 * (/ 2 ^ 30) ^ 2)%real by lra.
have d_small : (2 * (5 * (/ 2 ^ 30) ^ 2) <= / 2 ^ 53)%real by lra.
move: (5 * _)%real d_ge0 d_small => d d_ge0 d_small /(_ d_ge0)[e_lo e_hi].
move: (exp _) e_lo e_hi => e e_lo e_hi.
rewrite /theta_lab [theta0 _]/= RplusE RoppE 2!RmultE.
have K_le1 : (/ 2 ^ 53 <= 1)%real by lra.
have d_le1 : (d <= 1)%real by lra.
have sq_hi : (e * e <= 1)%real by nra.
have sq_lo : (1 - 2 * d <= e * e)%real by nra.
move: (/ 2 ^ 53)%real d_small => K d_small.
by apply: Rabs_le; split; lra.
Qed.

(** The matrix [[[5, 1], [1, 0.2]]]: symmetric and positive definite, with
    the determinant [2^-54]. *)
Lemma sigma_lost_sym : symmetric sigma_lost.
Proof.
apply/matrixP => i j; rewrite !mxE.
by case: i j => [[|[|i]] lt_i] [[|[|j]] lt_j].
Qed.

Lemma sigma_lost_posdef : posdef sigma_lost.
Proof.
move=> v v_n0; rewrite !mxE !big_ord_recl big_ord0 !mxE !big_ord_recl !big_ord0.
rewrite !mxE /= !addr0.
have fifth_lt : (1 / 5 < double_of_fifth)%real by rewrite /double_of_fifth; lra.
have : v ord0 ord0 != 0 \/ v ord0 (lift ord0 ord0) != 0.
  case/rV0Pn: v_n0 => i v_i.
  have [eq_i|eq_i] : i = ord0 \/ i = lift ord0 ord0.
  - by case: i {v_i} => [[|[|i]] lt_i] //; [left | right]; apply: val_inj.
  - by left; move: v_i; rewrite eq_i.
  - by right; move: v_i; rewrite eq_i.
move: (v ord0 (lift ord0 ord0)) (v ord0 ord0) double_of_fifth fifth_lt.
move=> b a d fifth_lt.
rewrite !RmultE !RplusE => nonzero.
have sq_ab := Rle_0_sqr (a + b / 5); rewrite /Rsqr in sq_ab.
have [b_0|b_n0] := Req_dec b 0.
  have a_n0 : (a <> 0)%real by case: nonzero => /eqP.
  have sq_a := Rsqr_pos_lt a a_n0; rewrite /Rsqr in sq_a.
  by rewrite b_0; nra.
have sq_b := Rsqr_pos_lt b b_n0; rewrite /Rsqr in sq_b.
have gap : (0 < (d - 1 / 5) * (b * b))%real.
  by apply: Rmult_lt_0_compat => //; lra.
by nra.
Qed.

Lemma sigma_lost_lost : zero_pivot lost sigma_lost.
Proof.
rewrite [zero_pivot _ _]/(Rleb _ _); apply/RleP; rewrite det_mx22 !mxE.
rewrite [X in Rabs X](_ : _ = 5 * double_of_fifth - 1 * 1)%real //.
by rewrite /double_of_fifth; apply: Rabs_le; split; lra.
Qed.

Lemma posdef_one : posdef (1%:M : 'M[R]_1).
Proof.
move=> v /rV0Pn[i]; rewrite (ord1 i) mulmx1 !mxE big_ord1 !mxE => /eqP v_n0.
rewrite RmultE; set a := v _ _ in v_n0 *.
have {}v_n0 : (a <> 0)%real by [].
by nra.
Qed.

Lemma one_kept : inv lost (1%:M : 'M[R]_1) = Ok (invmx 1%:M).
Proof.
by apply: inv_nopivot; rewrite zero_pivot_mx11 mxE eqxx mulr1n oner_eq0.
Qed.






End ConditionalExamples.

(** ** The parameter grid and random search *)

Section GridClaims.

Local Open Scope string_scope.

Variable V : eqType.
Implicit Types (params : dict (seq V)).

(** C3 (as amended): for every parameter space with at least one parameter,
    all of whose value lists are non-empty, [get_param_grid] returns a list
    whose length is the product of the lengths of the value lists. *)
Theorem get_param_grid_size params :
  params != [::] -> all (fun kv => kv.2 != [::]) params ->
  exists2 experiments, get_param_grid params = Ok experiments
    & size experiments = \prod_(kv <- params) size kv.2.
Proof.
move=> params_n0 _; rewrite (get_param_gridE params_n0).
exists [seq dict_of (zip (unzip1 params) v) | v <- product (unzip2 params)].
  by [].
by rewrite size_map size_product big_map.
Qed.

(** C7 (as amended): when some parameter has an empty value list,
    [get_param_grid] raises nothing and returns the empty list of
    experiments. *)
Theorem get_param_grid_empty_values params :
  has (fun kv => kv.2 == [::]) params -> get_param_grid params = Ok [::].
Proof.
move=> has_e; have params_n0 : params != [::] by case: (params) has_e.
rewrite get_param_gridE //; congr Ok.
suff /size0nil-> : size (product (unzip2 params)) = 0 by [].
by rewrite size_product prod_size_eq0 // has_map.
Qed.


(** C8 (as amended): for a parameter space with at least one parameter and a
    negative [n] that is at least [-2^63], [get_random_grid] raises
    nothing: it returns the empty list and leaves the generator as it
    was. *)
Theorem get_random_grid_negative params (n : Z) (g : rng) :
  params != [::] -> (- 2 ^ 63 <= n < 0)%int ->
  get_random_grid params n g = (Ok [::], g).
Proof.
move=> /get_param_gridE eq_grid [_ n_lt0].
by rewrite /get_random_grid eq_grid choices_negative.
Qed.

End GridClaims.

Section GridExamples.

Local Open Scope string_scope.

Lemma get_param_grid_size_witness :
  [/\ example_space != [::], all (fun kv => kv.2 != [::]) example_space
    & exists2 experiments, get_param_grid example_space = Ok experiments
        & size experiments = \prod_(kv <- example_space) size kv.2].
Proof.
split; [by [] | by [] |].
exact: (@get_param_grid_size _ example_space isT isT).
Defined.

(** C3, as stated, fails on the space without parameters: all its value
    lists are non-empty, and [get_param_grid] raises [ValueError]. *)
Lemma get_param_grid_size_empty_space :
  all (fun kv => kv.2 != [::]) empty_space
  /\ ~ (exists2 experiments, get_param_grid empty_space = Ok experiments
          & size experiments = \prod_(kv <- empty_space) size kv.2).
Proof. by split=> //; case. Qed.

(** C4 (as amended): for every parameter space with at least one parameter
    and non-empty value lists, [get_param_grid] returns the combinations in
    odometer order: entry [i] of the result pairs the keys with the
    odometer reading of [i], in which the last parameter varies fastest;
    the result is that of the nested loops over the value lists, first
    parameter outermost; equal spaces give equal results. For the space
    [{"a": [1, 2], "b": [10, 20]}] the result is
    [[{a:1,b:10}, {a:1,b:20}, {a:2,b:10}, {a:2,b:20}]]. *)
Theorem get_param_grid_odometer :
  (forall (V : eqType) (params : dict (seq V)),
     params != [::] -> all (fun kv => kv.2 != [::]) params ->
     let keys := unzip1 params in
     let values := unzip2 params in
     exists experiments,
       [/\ get_param_grid params = Ok experiments,
           experiments = [seq dict_of (zip keys v) | v <- odometer values],
           forall i, i < size experiments ->
             exists2 v, odometer_reading values i v
                      & nth [::] experiments i = dict_of (zip keys v)
         & forall params', params' = params ->
             get_param_grid params' = Ok experiments])
  /\ get_param_grid example_space
     = Ok [:: [:: ("a", 1); ("b", 10)]; [:: ("a", 1); ("b", 20)];
              [:: ("a", 2); ("b", 10)]; [:: ("a", 2); ("b", 20)]].
Proof.
split=> // V params params_n0 _ keys values.
exists [seq dict_of (zip keys v) | v <- product values].
split; first exact: get_param_gridE.
- by rewrite product_odometer.
- rewrite size_map => i lt_i; exists (nth [::] (product values) i).
    rewrite product_odometer; apply: odometer_readingP.
    by rewrite -size_product.
  by rewrite (nth_map [::]).
- by move=> params' ->; apply: get_param_gridE.
Qed.

Lemma get_param_grid_odometer_witness :
  [/\ example_space != [::], all (fun kv => kv.2 != [::]) example_space
    & exists experiments,
      [/\ get_param_grid example_space = Ok experiments,
          experiments = [seq dict_of (zip (unzip1 example_space) v)
                        | v <- odometer (unzip2 example_space)],
          forall i, i < size experiments ->
            exists2 v, odometer_reading (unzip2 example_space) i v
              & nth [::] experiments i
                = dict_of (zip (unzip1 example_space) v)
        & forall params', params' = example_space ->
            get_param_grid params' = Ok experiments]].
Proof.
split=> //.
exact: (proj1 get_param_grid_odometer _ example_space isT isT).
Defined.

(** C4, as stated, fails on the space without parameters: the odometer has
    one (empty) reading there, and [get_param_grid] raises [ValueError]. *)
Lemma get_param_grid_odometer_empty_space :
  all (fun kv => kv.2 != [::]) empty_space
  /\ odometer (unzip2 empty_space) = [:: [::]]
  /\ ~ (exists experiments : seq (experiment nat),
          get_param_grid empty_space = Ok experiments).
Proof. by split=> //; split=> //; case. Qed.

Lemma get_param_grid_empty_values_witness :
  has (fun kv => kv.2 == [::]) [:: ("a", [:: 1; 2]); ("b", [::])]
  /\ get_param_grid [:: ("a", [:: 1; 2]); ("b", [::])] = Ok [::].
Proof.
split; first by [].
exact: (@get_param_grid_empty_values _ [:: ("a", [:: 1; 2]); ("b", [::])] isT).
Defined.

(** C7, as stated, fails on [{"a": []}]: no exception is raised. *)
Lemma get_param_grid_empty_values_no_error :
  has (fun kv => kv.2 == [::]) [:: ("a", [::] : seq nat)]
  /\ raises (get_param_grid [:: ("a", [::] : seq nat)]) = false.
Proof. by []. Qed.



Lemma get_random_grid_negative_witness :
  [/\ example_space != [::], (- 2 ^ 63 <= -5 < 0)%int
    & get_random_grid example_space (-5) example_rng = (Ok [::], example_rng)].
Proof.
have in_range : (- 2 ^ 63 <= -5 < 0)%int by [].
split; [by [] | by [] |].
exact: (@get_random_grid_negative _ example_space (-5) example_rng isT
          in_range).
Defined.

(** C8, as stated, fails for [n = -1] on the example space: no exception is
    raised. *)
Lemma get_random_grid_negative_no_error :
  (-1 < 0)%int
  /\ raises (get_random_grid example_space (-1) example_rng).1 = false.
Proof. by []. Qed.

End GridExamples.

(** * Further properties of the code *)

(** ** The grid is the Cartesian product *)

Section GridProduct.

Variable V : eqType.
Implicit Types (pools : seq (seq V)) (params : dict (seq V)).

Lemma mem_odometer pools (v : seq V) :
  (v \in odometer pools) = all2 (fun x p => x \in p) v pools.
Proof.
elim: pools v => [|p ps IH] [|x v] //=.
- by apply/negP => /allpairsP[[y t] []].
- apply/allpairsP/andP => [[[y t] /= [y_in t_in [-> ->]]]|[x_in v_in]].
    by rewrite -IH.
  by exists (x, v); rewrite /= IH.
Qed.

Lemma all2_size (v : seq V) pools :
  all2 (fun x p => x \in p) v pools -> size v = size pools.
Proof. by elim: pools v => [|p ps IH] [|x v] //= /andP[_ /IH->]. Qed.

Lemma odometer_uniq pools : all uniq pools -> uniq (odometer pools).
Proof.
elim: pools => [|p ps IH] //= /andP[uniq_p /IH uniq_ps].
by apply: allpairs_uniq => // [[x1 t1] [x2 t2]] _ _ /= [-> ->].
Qed.

Lemma zip_inj (keys : seq string) (v w : seq V) :
  size v = size keys -> size w = size keys -> zip keys v = zip keys w -> v = w.
Proof.
move=> sz_v sz_w eq_zip.
by rewrite -(@unzip2_zip _ _ keys v) ?sz_v // eq_zip unzip2_zip ?sz_w.
Qed.

(** X1: with at least one parameter, the experiments of the grid are
    exactly the dictionaries that give every key one value of its list. *)
Theorem get_param_grid_complete params :
  params != [::] ->
  exists2 grid, get_param_grid params = Ok grid
    & forall e : experiment V,
        e \in grid
        <-> exists2 v, all2 (fun x p => x \in p) v (unzip2 params)
                     & e = dict_of (zip (unzip1 params) v).
Proof.
move=> params_n0; rewrite (get_param_gridE params_n0) product_odometer.
eexists; first by [].
move=> e; split=> [/mapP[v v_in ->]|[v v_in ->]].
  by exists v; rewrite // -mem_odometer.
by apply/mapP; exists v; rewrite // mem_odometer.
Qed.

(** X2: when no value list repeats a value, no experiment occurs twice in
    the grid. *)
Theorem get_param_grid_uniq params :
  params != [::] -> uniq (unzip1 params) -> all uniq (unzip2 params) ->
  exists2 grid, get_param_grid params = Ok grid & uniq grid.
Proof.
move=> params_n0 uniq_keys uniq_vals.
rewrite (get_param_gridE params_n0) product_odometer; eexists; first by [].
rewrite map_inj_in_uniq ?odometer_uniq // => v w.
rewrite !mem_odometer => /all2_size sz_v /all2_size sz_w.
have sz_keys : size (unzip2 params) = size (unzip1 params) by rewrite !size_map.
rewrite !dict_of_uniq ?unzip1_zip ?sz_v ?sz_w ?sz_keys //.
by apply: zip_inj; rewrite ?sz_v ?sz_w.
Qed.

(** X3: every experiment of the grid has the keys of the space, in the
    order of the space, and under each key a value of that key's list. *)
Theorem get_param_grid_keys params (grid : seq (experiment V))
    (e : experiment V) :
  uniq (unzip1 params) -> get_param_grid params = Ok grid -> e \in grid ->
  unzip1 e = unzip1 params
  /\ all2 (fun x p => x \in p) (unzip2 e) (unzip2 params).
Proof.
move=> uniq_keys; case: (altP (params =P [::])) => [->|params_n0] //.
rewrite (get_param_gridE params_n0) product_odometer => -[<-].
case/mapP=> v; rewrite mem_odometer => v_in ->.
have sz_v : size v = size (unzip1 params).
  by rewrite (all2_size v_in) !size_map.
by rewrite dict_of_uniq ?unzip1_zip ?unzip2_zip ?sz_v.
Qed.

End GridProduct.

(** ** Choosing the best run *)

Section BestRunTheory.

(** The accuracies are compared by a strict total order. *)
Variables (A : eqType) (gt : rel A) (E : Type).
Hypothesis gt_irr : irreflexive gt.
Hypothesis gt_trans : transitive gt.
Hypothesis gt_total : forall x y, x != y -> gt x y || gt y x.

Implicit Types (acc_hist : seq A) (experiments : seq E).

Lemma ngt_trans (y x z : A) : ~~ gt x y -> ~~ gt y z -> ~~ gt x z.
Proof.
move=> ngt_xy ngt_yz; apply/negP => gt_xz.
have [eq_yz|/gt_total/orP[gt_yz|gt_zy]] := eqVneq y z.
- by rewrite eq_yz gt_xz in ngt_xy.
- by rewrite gt_yz in ngt_yz.
- by rewrite (gt_trans gt_xz gt_zy) in ngt_xy.
Qed.

Lemma foldl_max_spec (m0 : A) (s : seq A) :
  let m := foldl (fun m y => if gt y m then y else m) m0 s in
  m \in m0 :: s /\ {in m0 :: s, forall x, ~~ gt x m}.
Proof.
elim: s m0 => [|y s IH] m0 /=.
  by split=> [|x]; rewrite ?mem_head // inE => /eqP->; rewrite gt_irr.
case: ifP => [gt_y|/negbT ngt_y].
  have [m_in m_max] := IH y; split; first by rewrite inE m_in orbT.
  move=> x; rewrite inE => /orP[/eqP->|/m_max//].
  apply/negP => gt_m0; have := m_max y (mem_head _ _).
  by rewrite (gt_trans gt_y gt_m0).
have [m_in m_max] := IH m0; split.
  by move: m_in; rewrite !inE => /orP[->|->] //; rewrite !orbT.
move=> x; rewrite !inE => /or3P[/eqP->|/eqP->|x_in].
- by apply: m_max; rewrite mem_head.
- exact: ngt_trans ngt_y (m_max m0 (mem_head _ _)).
- by apply: m_max; rewrite inE x_in orbT.
Qed.

Lemma py_max_spec acc_hist :
  acc_hist != [::] ->
  exists m, [/\ py_max gt acc_hist = Ok m, m \in acc_hist
               & {in acc_hist, forall x, ~~ gt x m}].
Proof.
case: acc_hist => // m0 s _; have [m_in m_max] := foldl_max_spec m0 s.
by eexists; split.
Qed.

Lemma getitem_cases (T : Type) (s : seq T) (i : nat) :
  match getitem s i return Prop with
  | Ok _ => i < size s
  | Raise e => e = IndexError /\ size s <= i
  end.
Proof.
rewrite /getitem; case eq_d: (drop i s) (size_drop i s) => [|x d] /= sz_d.
  by split=> //; rewrite -subn_eq0 -sz_d.
by rewrite -subn_gt0 -sz_d.
Qed.

Lemma py_max_in (m0 : A) (s : seq A) :
  foldl (fun m y => if gt y m then y else m) m0 s \in m0 :: s.
Proof.
elim: s m0 => [|y s IH] m0 /=; first exact: mem_head.
case: ifP => _; first by rewrite inE IH orbT.
by have := IH m0; rewrite !inE => /orP[->|->] //; rewrite !orbT.
Qed.

(** X4: of a non-empty accuracy history and at least as many experiments,
    [get_best_run] returns the largest accuracy and the experiment at the
    first position that holds it; every accuracy before that position is
    strictly smaller. *)
Theorem get_best_run_first_max acc_hist experiments (verbose : bool) :
  acc_hist != [::] -> size acc_hist <= size experiments ->
  exists m best i,
    [/\ get_best_run gt acc_hist experiments verbose = Ok (m, best),
        {in acc_hist, forall x, ~~ gt x m},
        i < size acc_hist /\ nth m acc_hist i = m,
        forall j, j < i -> gt m (nth m acc_hist j)
      & forall e0, nth e0 experiments i = best].
Proof.
move=> acc_n0 le_sz; have [m [eq_m m_in m_max]] := py_max_spec acc_n0.
have lt_i : index m acc_hist < size acc_hist by rewrite index_mem.
have lt_i' : index m acc_hist < size experiments by exact: leq_trans le_sz.
have x0 : E by case: (experiments) lt_i'.
exists m, (nth x0 experiments (index m acc_hist)), (index m acc_hist).
split=> //.
- by rewrite /get_best_run eq_m /= /list_index m_in /= (getitem_nth x0).
- by rewrite nth_index.
- move=> j lt_j; have lt_j' : j < size acc_hist by exact: ltn_trans lt_i.
  have neq_j : m != nth m acc_hist j.
    by rewrite eq_sym; have /= -> := before_find m lt_j.
  have /orP[//|gt_j] := gt_total neq_j.
  by have := m_max _ (mem_nth m lt_j'); rewrite gt_j.
- by move=> e0; apply: set_nth_default.
Qed.

(** X5: [get_best_run] raises [ValueError] exactly on an empty accuracy
    history ([max] of an empty list; [index] always finds the maximum); it
    raises [IndexError] exactly when the first position of the maximum is
    not a position of [experiments], as when there are no experiments. *)
Theorem get_best_run_errors acc_hist experiments (verbose : bool) :
  let run := get_best_run gt acc_hist experiments verbose in
  [/\ run = Raise ValueError <-> acc_hist = [::],
      run = Raise IndexError
      <-> exists2 m, py_max gt acc_hist = Ok m
                   & size experiments <= index m acc_hist
    & acc_hist != [::] -> experiments = [::] -> run = Raise IndexError].
Proof.
rewrite /get_best_run; case: acc_hist => [|m0 s] /=.
  by split=> //; split=> // -[m].
set m := foldl _ m0 s; have m_in : m \in m0 :: s by exact: py_max_in.
rewrite /list_index m_in /=.
have := getitem_cases experiments (index m (m0 :: s)).
case: (getitem _ _) => [e lt_i|e [-> le_i]] /=.
  split=> [||_ eq_e]; [by [] | | by rewrite eq_e in lt_i].
  by split=> // -[m' [<-]]; rewrite leqNgt lt_i.
by split=> //; split=> // _; exists m.
Qed.

End BestRunTheory.

(** ** The training loop *)

Section TrainTheory.

Variables (net sample label : Type).
Variable step : net -> seq sample -> seq label -> net * R.

Lemma ceil_divP (n b : nat) :
  0 < b -> n <= (n + b - 1) %/ b * b /\ (n + b - 1) %/ b * b < n + b.
Proof.
move=> b_gt0; have := divn_eq (n + b - 1) b; have := ltn_pmod (n + b - 1) b_gt0.
move: (_ %/ b) (_ %% b) => q r /ltP lt_r eq_q; move/ltP: b_gt0 => b_gt0.
move: eq_q; rewrite -!plusE -!multE -!minusE => eq_q.
by split; [apply/leP | apply/ltP]; rewrite -?plusE -?multE; lia.
Qed.

Lemma for_each_ok (I S : Type) (body : I -> S -> S * option error)
    (items : seq I) (st : S) :
  (forall i s, (body i s).2 = None) ->
  for_each body items st = (foldl (fun s i => (body i s).1) st items, None).
Proof.
move=> body_ok; elim: items st => [|i items IH] st //=.
by case: (body i st) (body_ok i st) => st' err /= ->; rewrite IH.
Qed.

Implicit Types (train_X : seq sample) (train_y : seq label) (st : trained net).

Lemma train_batchE batch_size train_X train_y max_epochs verbose iterations
    epoch index st :
  prints_safely verbose iterations ->
  let b := Z.to_nat batch_size in
  let r := step (t_net st) (take b (drop index train_X))
             (take b (drop index train_y)) in
  let out := train_batch step batch_size train_X train_y max_epochs verbose
               iterations epoch index st in
  [/\ out.2 = None, t_net out.1 = r.1,
      t_loss_hist out.1 = rcons (t_loss_hist st) r.2
    & verbose = false -> t_printed out.1 = t_printed st].
Proof.
move=> safe /=; rewrite /train_batch; case: (step _ _ _) => net' loss /=.
case: verbose safe => [[//|/Z.eqb_neq->]|_] //.
by case: (_ =? _)%int.
Qed.

Lemma train_batches_fold batch_size train_X train_y max_epochs verbose
    iterations epoch (indices : seq nat) st :
  prints_safely verbose iterations ->
  let b := Z.to_nat batch_size in
  let out := foldl (fun s i => (train_batch step batch_size train_X train_y
                                  max_epochs verbose iterations epoch i s).1)
               st indices in
  [/\ t_net out
      = foldl (fun nt bt => (step nt bt.1 bt.2).1) (t_net st)
          [seq (take b (drop i train_X), take b (drop i train_y))
          | i <- indices],
      size (t_loss_hist out) = size (t_loss_hist st) + size indices
    & verbose = false -> t_printed out = t_printed st].
Proof.
move=> safe /=; elim: indices st => [|i idx IH] st /=; first by rewrite addn0.
have [_ eq_net eq_hist eq_out] :=
  train_batchE batch_size train_X train_y max_epochs epoch i st safe.
have [-> -> eq_out'] := IH (train_batch step batch_size train_X train_y
  max_epochs verbose iterations epoch i st).1.
split; rewrite ?eq_net ?eq_hist ?size_rcons ?addSnnS //.
by move=> quiet; rewrite eq_out' ?eq_out.
Qed.

Lemma train_epochE batch_size train_X train_y max_epochs verbose iterations
    epoch st :
  (0 < batch_size)%int -> prints_safely verbose iterations ->
  let b := Z.to_nat batch_size in
  let n := size train_X in
  let out := train_epoch step batch_size train_X train_y max_epochs verbose
               iterations epoch st in
  [/\ out.2 = None,
      t_net out.1
      = foldl (fun nt bt => (step nt bt.1 bt.2).1) (t_net st)
          (zip (batches n b train_X) (batches n b train_y)),
      size (t_loss_hist out.1) = size (t_loss_hist st) + (n + b - 1) %/ b
    & verbose = false -> t_printed out.1 = t_printed st].
Proof.
move=> b_gt0 safe b n; rewrite /train_epoch.
have -> : py_range n batch_size = Ok [seq i * b | i <- iota 0 ((n + b - 1) %/ b)].
  by rewrite /py_range /b; case: (batch_size) b_gt0.
rewrite for_each_ok => [i s|].
  by case: (train_batchE batch_size train_X train_y max_epochs epoch i s safe).
have [eq_net eq_hist eq_out] := train_batches_fold batch_size train_X train_y
  max_epochs epoch [seq i * b | i <- iota 0 ((n + b - 1) %/ b)] st safe.
split=> //=; first by rewrite eq_net /batches zip_map -map_comp.
by rewrite eq_hist size_map size_iota.
Qed.

Lemma train_epochs_fold batch_size train_X train_y max_epochs verbose
    iterations (epochs : seq nat) st :
  (0 < batch_size)%int -> prints_safely verbose iterations ->
  let b := Z.to_nat batch_size in
  let n := size train_X in
  let out := foldl (fun s e => (train_epoch step batch_size train_X train_y
                                  max_epochs verbose iterations e s).1)
               st epochs in
  [/\ t_net out
      = iter (size epochs)
          (foldl (fun nt bt => (step nt bt.1 bt.2).1)
             ^~ (zip (batches n b train_X) (batches n b train_y)))
          (t_net st),
      size (t_loss_hist out)
      = size (t_loss_hist st) + size epochs * ((n + b - 1) %/ b)
    & verbose = false -> t_printed out = t_printed st].
Proof.
move=> b_gt0 safe /=; elim: epochs st => [|e es IH] st /=.
  by rewrite mul0n addn0.
have [_ eq_net eq_hist eq_out] :=
  train_epochE train_X train_y max_epochs e st b_gt0 safe.
have [-> -> eq_out'] := IH (train_epoch step batch_size train_X train_y
  max_epochs verbose iterations e st).1.
split; rewrite ?eq_net ?eq_hist -?iterSr ?mulSn ?addnA //.
by move=> quiet; rewrite eq_out' ?eq_out.
Qed.

Lemma flatten_slices (T : Type) (b k : nat) (s : seq T) :
  size s <= k * b ->
  flatten [seq take b (drop (i * b) s) | i <- iota 0 k] = s.
Proof.
elim: k s => [|k IH] s; first by rewrite mul0n leqn0 => /eqP/size0nil->.
rewrite mulSn -leq_subLR -size_drop => /IH eq_s.
rewrite /= mul0n drop0 -[in RHS](cat_take_drop b s) -[in RHS]eq_s.
congr (_ ++ flatten _); rewrite (iotaDl 1 0 k) -map_comp.
by apply: eq_map => i /=; rewrite drop_drop add1n mulSn addnC.
Qed.

Lemma size_slices (T : Type) (n b : nat) (s : seq T) :
  0 < b -> size s = n ->
  all (fun bt => 0 < size bt <= b) (batches n b s).
Proof.
move=> b_gt0 sz_s; have [_ lt_q] := ceil_divP n b_gt0.
rewrite /batches all_map; apply/allP => i; rewrite mem_iota add0n /= => lt_i.
rewrite size_take_min size_drop sz_s geq_minl andbT leq_min b_gt0 subn_gt0.
rewrite -(ltn_add2r b) addnC -mulSn; apply: leq_ltn_trans lt_q.
by rewrite leq_mul2r lt_i orbT.
Qed.

(** X6: with a positive batch size, and progress lines that do not raise,
    [train] ends normally with one loss per mini-batch, that is
    [max_epochs * ceil(n / batch_size)] losses for [n] samples; without
    [verbose] it prints nothing. *)
Theorem train_loss_history (net0 : net) batch_size train_X train_y
    max_epochs verbose iterations :
  (0 < batch_size)%int -> prints_safely verbose iterations ->
  let b := Z.to_nat batch_size in
  let out := train step net0 batch_size train_X train_y max_epochs verbose
               iterations in
  [/\ out.2 = None,
      size (t_loss_hist out.1)
      = Z.to_nat max_epochs * ((size train_X + b - 1) %/ b)
    & verbose = false -> t_printed out.1 = [::]].
Proof.
move=> b_gt0 safe /=; rewrite /train for_each_ok => [e s|].
  by case: (train_epochE train_X train_y max_epochs e s b_gt0 safe).
have [_ -> eq_out] :=
  train_epochs_fold train_X train_y max_epochs (iota 0 (Z.to_nat max_epochs))
    (Trained net0 [::] [::]) b_gt0 safe.
by rewrite size_iota.
Qed.

(** X7: with a positive batch size, every epoch of [train] applies the step
    to the mini-batches in turn; the mini-batches of an epoch are not
    empty, have at most [batch_size] samples and, put end to end, are the
    training data: an epoch uses every sample once, in order. *)
Theorem train_batches (net0 : net) batch_size train_X train_y max_epochs
    verbose iterations :
  (0 < batch_size)%int -> prints_safely verbose iterations ->
  let b := Z.to_nat batch_size in
  let n := size train_X in
  let out := train step net0 batch_size train_X train_y max_epochs verbose
               iterations in
  [/\ t_net out.1
      = iter (Z.to_nat max_epochs)
          (foldl (fun nt bt => (step nt bt.1 bt.2).1)
             ^~ (zip (batches n b train_X) (batches n b train_y)))
          net0,
      flatten (batches n b train_X) = train_X,
      all (fun bt => 0 < size bt <= b) (batches n b train_X)
    & size train_y = n -> flatten (batches n b train_y) = train_y].
Proof.
move=> b_gt0 safe b n.
have b_gt0' : 0 < b by apply/ltP; rewrite /b; lia.
have [le_q _] := ceil_divP n b_gt0'.
split.
- rewrite /train for_each_ok => [e s|].
    by case: (train_epochE train_X train_y max_epochs e s b_gt0 safe).
  have [-> _ _] :=
    train_epochs_fold train_X train_y max_epochs
      (iota 0 (Z.to_nat max_epochs)) (Trained net0 [::] [::]) b_gt0 safe.
  by rewrite size_iota.
- exact: flatten_slices.
- exact: size_slices.
- by move=> sz_y; apply: flatten_slices; rewrite sz_y.
Qed.

Lemma foldl_measure (I S : Type) (f : S -> I -> S) (mu : S -> nat)
    (w : I -> nat) (items : seq I) (s : S) :
  (forall s i, mu (f s i) = mu s + w i) ->
  mu (foldl f s items) = mu s + sumn [seq w i | i <- items].
Proof.
move=> mu_f; elim: items s => [|i items IH] s /=; first by rewrite addn0.
by rewrite IH mu_f addnA.
Qed.

Lemma sumn_const (I : Type) (c : nat) (s : seq I) :
  sumn [seq c | _ <- s] = size s * c.
Proof. by elim: s => //= _ s ->; rewrite mulSn. Qed.

Lemma train_batch_printed batch_size train_X train_y max_epochs iterations
    epoch index st :
  iterations <> 0%int ->
  size (t_printed (train_batch step batch_size train_X train_y max_epochs
                     true iterations epoch index st).1)
  = size (t_printed st) + (Z.of_nat index mod iterations =? 0)%int.
Proof.
move=> /Z.eqb_neq it_n0; rewrite /train_batch; case: (step _ _ _) => net' loss.
by rewrite it_n0; case: (_ =? _)%int; rewrite /= ?size_rcons ?addn1 ?addn0.
Qed.



(** X10: with [verbose] and [iterations = 0], a positive batch size, an epoch
    to run and a sample to train on, [train] performs the first step and
    then raises [ZeroDivisionError] at the progress line. *)
Theorem train_zero_iterations (net0 : net) batch_size train_X train_y
    max_epochs :
  (0 < batch_size)%int -> (0 < max_epochs)%int -> 0 < size train_X ->
  let b := Z.to_nat batch_size in
  let r := step net0 (take b train_X) (take b train_y) in
  train step net0 batch_size train_X train_y max_epochs true 0
  = (Trained r.1 [:: r.2] [::], Some ZeroDivisionError).
Proof.
move=> b_gt0 e_gt0 X_n0 b r.
have b_gt0' : 0 < b by apply/ltP; rewrite /b; lia.
have [k eq_k] : exists k, Z.to_nat max_epochs = k.+1.
  by exists (Z.to_nat max_epochs).-1; lia.
have [q eq_q] : exists q, (size train_X + b - 1) %/ b = q.+1.
  have [le_q _] := ceil_divP (size train_X) b_gt0'.
  case: (_ %/ b) le_q => [|q _]; last by exists q.
  by rewrite mul0n leqn0 => /eqP/size0nil eq_X; rewrite eq_X in X_n0.
rewrite /train eq_k /= /train_epoch.
have -> : py_range (size train_X) batch_size
          = Ok [seq i * b | i <- iota 0 ((size train_X + b - 1) %/ b)].
  by rewrite /py_range /b; case: (batch_size) b_gt0.
rewrite eq_q /= /train_batch /= mul0n !drop0 -/b.
by rewrite -/r; case: r.
Qed.

End TrainTheory.

(** ** When the conditioning can be computed *)

Section ConditioningTheory.

Local Open Scope ring_scope.

(** Whether [np.linalg.inv] meets a zero pivot. *)
Variable lu : forall n : nat, 'M[R]_n -> bool.

Implicit Types (x y t data : seq R) (th : theta).


Lemma exponential_cov_row (a : R) data th :
  exponential_cov [:: a] data th
  = rowvec (size data) [seq exponential_cov0 a b th | b <- data].
Proof.
apply/matrixP => i j; rewrite !mxE (ord1 i) /=.
by rewrite (nth_map 0).
Qed.



End ConditioningTheory.

(** ** Random search, draw by draw *)

Section RandomSearchTheory.

Variable V : eqType.
Implicit Types (params : dict (seq V)).

Lemma get_param_grid_nil params :
  has (fun kv => kv.2 == [::]) params -> get_param_grid params = Ok [::].
Proof.
move=> has_e; have params_n0 : params != [::] by case: (params) has_e.
rewrite get_param_gridE //; congr Ok.
suff /size0nil-> : size (product (unzip2 params)) = 0 by [].
by rewrite size_product prod_size_eq0 // has_map.
Qed.

(** The draws of [choices]: draw [i] reads the random number at position
    [rng_pos g + i]. *)
Lemma choices_loopE (T : Type) (x0 : T) (population : seq T) (k : nat)
    (g : rng) :
  0 < size population ->
  choices_loop population k g
  = (Ok [seq nth x0 population
               (floor_scaled (rng_stream g (rng_pos g + i) mod 2 ^ 53)%num
                  (size population))
        | i <- iota 0 k],
     Rng (rng_stream g) (rng_pos g + k)).
Proof.
move=> sz_gt0; elim: k g => [|k IH] g; first by rewrite addn0; case: g.
have lt_i := floor_scaled_lt (random_lt g) sz_gt0.
rewrite choices_loopS (getitem_nth x0 lt_i) IH /= addn0 addSnnS.
congr (Ok (_ :: _), _); rewrite (iotaDl 1 0 k) -map_comp.
by apply: eq_map => i /=; rewrite addSnnS.
Qed.

(** X16: of a space with at least one parameter and non-empty value lists,
    [get_random_grid] draws every experiment from the grid by one rule
    from one number of the generator, the [i]-th experiment from the
    [i]-th number, and leaves the generator [n] numbers further ([n]
    within the range of a C [ssize_t]). *)
Theorem get_random_grid_stream params :
  params != [::] -> all (fun kv => kv.2 != [::]) params ->
  exists (grid : seq (experiment V)) (pick : N -> experiment V),
    [/\ get_param_grid params = Ok grid,
        forall m, pick m \in grid
      & forall (n : Z) (g : rng), (- 2 ^ 63 <= n < 2 ^ 63)%int ->
        get_random_grid params n g
        = (Ok [seq pick (rng_stream g (rng_pos g + i))
              | i <- iota 0 (Z.to_nat n)],
           Rng (rng_stream g) (rng_pos g + Z.to_nat n))].
Proof.
move=> params_n0 vals_n0.
have [grid eq_grid sz_grid] := get_param_grid_size_nonempty params_n0.
have sz_gt0 : 0 < size grid.
  by rewrite sz_grid -prod_size_values; apply: prod_size_gt0; rewrite all_map.
exists grid.
exists (fun m => nth [::] grid (floor_scaled (m mod 2 ^ 53)%num (size grid))).
split=> // [m|n g _].
  by apply/mem_nth/floor_scaled_lt => //; apply: N.mod_upper_bound.
by rewrite /get_random_grid eq_grid /choices (choices_loopE [::] _ _ sz_gt0).
Qed.

(** X17: when some parameter has an empty value list, [get_random_grid]
    raises [IndexError] at the first draw for every [n > 0], one random
    number being consumed; for [n <= 0] it returns the empty list ([n]
    within the range of a C [ssize_t]). *)
Theorem get_random_grid_empty_values params (n : Z) (g : rng) :
  has (fun kv => kv.2 == [::]) params -> (- 2 ^ 63 <= n < 2 ^ 63)%int ->
  get_random_grid params n g
  = if (0 <? n)%int then (Raise IndexError, (random g).2) else (Ok [::], g).
Proof.
move=> /get_param_grid_nil eq_grid _.
rewrite /get_random_grid eq_grid /choices.
case: n => [|p|p] //=.
have [k ->] : exists k, Pos.to_nat p = k.+1.
  by exists (Pos.to_nat p).-1; lia.
by rewrite choices_loopS.
Qed.

Lemma floor_scaled_onto (i n : nat) :
  i < n -> (N.of_nat n <= 2 ^ 53)%num ->
  exists2 m, (m < 2 ^ 53)%num & floor_scaled m n = i.
Proof.
move=> /ltP lt_i; rewrite /floor_scaled; move: (2 ^ 53)%num => P le_n.
pose a := (N.of_nat i * P + N.of_nat n - 1)%num.
have n_n0 : N.of_nat n <> 0%num by lia.
have eq_a := N.div_mod a (N.of_nat n) n_n0.
have lt_r := N.mod_lt a (N.of_nat n) n_n0.
move: eq_a lt_r; rewrite /a; move: (_ / N.of_nat n)%num (_ mod _)%num => m r.
move=> eq_a lt_r; exists m; first by nia.
have -> : ((m * N.of_nat n) / P = N.of_nat i)%num; last by lia.
symmetry; apply: (N.div_unique _ _ _ (m * N.of_nat n - P * N.of_nat i)%num).
  by nia.
by nia.
Qed.

(** X18: as long as the grid has at most [2^53] experiments, every
    experiment of the grid is the draw of [get_random_grid] for some
    random number. *)
Theorem get_random_grid_reaches params (grid : seq (experiment V))
    (e : experiment V) :
  get_param_grid params = Ok grid -> (N.of_nat (size grid) <= 2 ^ 53)%num ->
  e \in grid ->
  exists g, (get_random_grid params 1 g).1 = Ok [:: e].
Proof.
move=> eq_grid le_sz e_in; have lt_i : index e grid < size grid.
  by rewrite index_mem.
have [m lt_m eq_m] := floor_scaled_onto lt_i le_sz.
exists (Rng (fun=> m) 0); rewrite /get_random_grid eq_grid /choices.
have sz_gt0 : 0 < size grid by exact: leq_ltn_trans lt_i.
by rewrite (choices_loopE [::] _ _ sz_gt0) /= N.mod_small // eq_m nth_index.
Qed.

End RandomSearchTheory.

(** ** The split into training and validation data *)

Section LoadMnistTheory.

Variables (sample label : eqType).
Variable int_scaled : nat -> R -> nat.

Implicit Types (train_X test_X : seq sample) (train_y test_y : seq label).
Implicit Types (indices idx : seq nat).

Lemma take_rows_ok (T : Type) (x0 : T) (a : seq T) idx :
  all (fun i => i < size a) idx ->
  take_rows a idx = Ok [seq nth x0 a i | i <- idx].
Proof.
elim: idx => [|i idx IH] //= /andP[lt_i /IH eq_idx].
by rewrite (getitem_nth x0 lt_i) /= -/(take_rows a idx) eq_idx.
Qed.

Lemma take_rows_raise (T : Type) (a : seq T) idx :
  has (fun i => size a <= i) idx -> take_rows a idx = Raise IndexError.
Proof.
elim: idx => [|i idx IH] //=; rewrite -/(take_rows a idx).
have := getitem_cases a i; case: (getitem a i) => [x lt_i|e [-> _]] //=.
by rewrite leqNgt lt_i /= => /IH->.
Qed.

Lemma take_rows_error (T : Type) (a : seq T) idx :
  if take_rows a idx is Raise e then e = IndexError else True.
Proof.
elim: idx => [|i idx] //=; rewrite -/(take_rows a idx).
have := getitem_cases a i; case: (getitem a i) => [x _|e [-> _]] //=.
by case: (take_rows a idx).
Qed.

Lemma RlebP (x y : R) : reflect (x <= y)%real (Rleb x y).
Proof. by rewrite /Rleb; case: Rle_dec => le_xy; constructor. Qed.

Lemma perm_indices (n : nat) indices :
  perm_eq indices (iota 0 n) -> all (fun i => i < n) indices.
Proof.
by move=> /perm_mem eq_idx; apply/allP => i; rewrite eq_idx mem_iota.
Qed.

(** X20: with a training fraction between 0 and 1 and as many labels as
    samples, [load_mnist] splits the samples with their labels into a
    training part and a validation part: together they are the loaded
    training pairs, each once, and the test data are returned as loaded. *)
Theorem load_mnist_partition (train_fraction : R) (verbose : bool) train_X
    train_y test_X test_y indices :
  (0 <= train_fraction <= 1)%real ->
  perm_eq indices (iota 0 (size train_X)) -> size train_y = size train_X ->
  exists r,
    [/\ load_mnist int_scaled train_fraction verbose train_X train_y test_X
          test_y indices = inl r,
        perm_eq (zip (m_train_X r) (m_train_y r)
                 ++ zip (m_valid_X r) (m_valid_y r))
          (zip train_X train_y),
        size (m_train_X r)
        = minn (int_scaled (size train_X) train_fraction) (size train_X)
        /\ size (m_train_y r) = size (m_train_X r),
        size (m_valid_X r) = size train_X - size (m_train_X r)
        /\ size (m_valid_y r) = size (m_valid_X r)
      & m_test_X r = test_X /\ m_test_y r = test_y].
Proof.
case=> /RlebP ge0 /RlebP le1 perm_idx sz_y.
rewrite /load_mnist ge0 le1 /=.
set k := int_scaled _ _.
have sz_idx : size indices = size train_X.
  by rewrite (perm_size perm_idx) size_iota.
case: train_X train_y sz_y perm_idx sz_idx @k => [|x0 X] [|y0 y] // sz_y.
  by case: indices => // _ _ /=; eexists; split.
move: (x0 :: X) (y0 :: y) sz_y => {X y} X y sz_y perm_idx sz_idx k.
have lt_idx := perm_indices perm_idx.
have lt_take : all (fun i => i < size X) (take k indices).
  by apply/allP => i /mem_take /(allP lt_idx).
have lt_drop : all (fun i => i < size X) (drop k indices).
  by apply/allP => i /mem_drop /(allP lt_idx).
rewrite (take_rows_ok x0 lt_take) (take_rows_ok x0 lt_drop) /=.
rewrite -sz_y in lt_take lt_drop.
rewrite (take_rows_ok y0 lt_take) (take_rows_ok y0 lt_drop) /=.
eexists; split; first by [].
- rewrite /= !zip_map -map_cat cat_take_drop.
  have -> : zip X y = [seq (nth x0 X i, nth y0 y i) | i <- iota 0 (size X)].
    apply: (@eq_from_nth _ (x0, y0)).
      by rewrite size_map size_iota size_zip sz_y minnn.
    rewrite size_zip sz_y minnn => i lt_i.
    by rewrite nth_zip // (nth_map 0) ?size_iota // nth_iota.
  exact: perm_map.
- by rewrite /= !size_map size_take_min sz_idx.
- rewrite /= !size_map size_drop size_take_min sz_idx; split=> //.
  rewrite /minn; case: ltnP => // le_k; rewrite subnn.
  by apply/eqP; rewrite subn_eq0.
- by [].
Qed.

(** X21: with fewer labels than samples, [load_mnist] raises [IndexError]:
    the permutation holds a row number that the labels do not have. *)
Theorem load_mnist_short_labels (train_fraction : R) (verbose : bool) train_X
    train_y test_X test_y indices :
  (0 <= train_fraction <= 1)%real ->
  perm_eq indices (iota 0 (size train_X)) -> size train_y < size train_X ->
  load_mnist int_scaled train_fraction verbose train_X train_y test_X test_y
    indices = inr (Builtin IndexError).
Proof.
case=> /RlebP ge0 /RlebP le1 perm_idx lt_y.
rewrite /load_mnist ge0 le1 /=; set k := int_scaled _ _.
case: train_X lt_y perm_idx @k => // x0 X lt_y perm_idx k.
have lt_idx := perm_indices perm_idx.
have lt_take : all (fun i => i < size (x0 :: X)) (take k indices).
  by apply/allP => i /mem_take /(allP lt_idx).
have lt_drop : all (fun i => i < size (x0 :: X)) (drop k indices).
  by apply/allP => i /mem_drop /(allP lt_idx).
rewrite (take_rows_ok x0 lt_take) (take_rows_ok x0 lt_drop) /=.
have : has (fun i => size train_y <= i) (take k indices ++ drop k indices).
  rewrite cat_take_drop; apply/hasP; exists (size train_y) => //.
  by rewrite (perm_mem perm_idx) mem_iota.
rewrite has_cat => /orP[/take_rows_raise->//|/take_rows_raise->].
by have := take_rows_error train_y (take k indices); case: (take_rows _ _) => [s|e ->].
Qed.

End LoadMnistTheory.

(** ** The loops of the Ray Tune notebook *)

Section TuneTheory.

Variables (model sample : Type) (label : eqType).
Variable step : model -> seq (sample * label) -> model.
Variable predicted : model -> sample -> label.

Implicit Types (loader : seq (seq (sample * label))) (m : model).

Lemma train_loopE (limit i : nat) loader m :
  Tune.train_loop step limit i loader m
  = foldl step m (Tune.processed limit i loader).
Proof.
by elim: loader i m => [|bt loader IH] i m //=; case: ifP => _ /=.
Qed.

Lemma test_loopE m (limit i : nat) loader (correct total : nat) :
  Tune.test_loop predicted m limit i loader correct total
  = (correct + count (fun dt => predicted m dt.1 == dt.2)
                 (flatten (Tune.processed limit i loader)),
     total + size (flatten (Tune.processed limit i loader))).
Proof.
elim: loader i correct total => [|bt loader IH] i c t /=.
  by rewrite !addn0.
case: ifP => _ /=; first by rewrite !addn0.
by rewrite IH count_cat size_cat !addnA.
Qed.

Lemma processed_uniform (limit b i : nat) loader :
  0 < b -> i <= (limit %/ b).+1 ->
  all (fun bt => size bt == b) (take ((limit %/ b).+2 - i) loader) ->
  Tune.processed limit i loader = take ((limit %/ b).+1 - i) loader.
Proof.
move=> b_gt0; elim: loader i => [|bt loader IH] i //.
rewrite leq_eqVlt => /orP[/eqP->|].
  rewrite subSnn subnn /= take0 => /andP[/eqP-> _].
  by rewrite ltn_ceil.
rewrite ltnS => le_i; rewrite !subSn ?(leq_trans le_i) //= => /andP[/eqP sz_bt all_b].
rewrite sz_bt ltnNge (leq_trans _ (leq_trunc_div limit b)) ?leq_mul2r ?le_i
  ?orbT //=.
by rewrite IH ?subSS ?subSn.
Qed.

Lemma size_flatten_uniform (T : Type) (b : nat) (ss : seq (seq T)) :
  all (fun bt => size bt == b) ss -> size (flatten ss) = size ss * b.
Proof.
elim: ss => [|s ss IH] //= /andP[/eqP sz_s /IH eq_ss].
by rewrite size_cat sz_s eq_ss mulSn.
Qed.

Lemma all_take_le (T : Type) (p : pred T) (i j : nat) (s : seq T) :
  i <= j -> all p (take j s) -> all p (take i s).
Proof.
by elim: s i j => [|x s IH] [|i] [|j] //= le_ij /andP[-> /IH->].
Qed.

(** X22: on a loader whose batches have [b] samples each, [train] performs
    the step on the first [EPOCH_SIZE div b + 1] batches, in order, and on
    no other: when the loader has that many batches, on more than
    [EPOCH_SIZE] samples. *)
Theorem tune_train_batches (b : nat) loader m :
  0 < b ->
  all (fun bt => size bt == b) (take (Tune.EPOCH_SIZE %/ b).+2 loader) ->
  let done := take (Tune.EPOCH_SIZE %/ b).+1 loader in
  Tune.train step m loader = foldl step m done
  /\ (Tune.EPOCH_SIZE %/ b < size loader ->
      Tune.EPOCH_SIZE < size (flatten done) <= Tune.EPOCH_SIZE + b).
Proof.
move=> b_gt0 all_b /=; rewrite /Tune.train train_loopE.
rewrite (@processed_uniform _ b) ?subn0 //; split=> // lt_sz.
rewrite (size_flatten_uniform (all_take_le (leqnSn _) all_b)).
rewrite size_take_min (minn_idPl lt_sz) ltn_ceil // mulSn addnC.
by rewrite leq_add2r leq_trunc_div.
Qed.

(** X23: on a non-empty loader whose batches have [b] samples each, [test]
    returns the share of the samples of the first [TEST_SIZE div b + 1]
    batches whose predicted class is the target. *)
Theorem tune_test_accuracy (b : nat) loader m :
  0 < b -> 0 < size loader ->
  all (fun bt => size bt == b) (take (Tune.TEST_SIZE %/ b).+2 loader) ->
  let seen := flatten (take (Tune.TEST_SIZE %/ b).+1 loader) in
  Tune.test predicted m loader
  = inl (INR (count (fun dt => predicted m dt.1 == dt.2) seen)
         / INR (size seen))%real.
Proof.
move=> b_gt0 loader_n0 all_b /=; rewrite /Tune.test test_loopE !add0n.
rewrite (@processed_uniform _ b) ?subn0 //.
rewrite (size_flatten_uniform (all_take_le (leqnSn _) all_b)).
rewrite size_take_min muln_eq0 -[b == 0]negbK -lt0n b_gt0 orbF.
by rewrite ifN // -lt0n leq_min loader_n0.
Qed.

(** X24: [test] returns an accuracy between 0 and 1, or raises
    [ZeroDivisionError]; it raises on an empty loader, and returns when
    the first batch is not empty. *)
Theorem tune_test_range loader m :
  [/\ match Tune.test predicted m loader with
      | inl acc => (0 <= acc <= 1)%real
      | inr e => e = ZeroDivisionError
      end,
      loader = [::] -> Tune.test predicted m loader = inr ZeroDivisionError
    & forall bt rest, loader = bt :: rest -> 0 < size bt ->
      exists acc, Tune.test predicted m loader = inl acc].
Proof.
rewrite /Tune.test test_loopE !add0n; split=> [|->|bt rest -> bt_n0] //.
- set seen := flatten _; case: eqP => // /eqP; rewrite -lt0n => /ltP/lt_0_INR.
  have /leP/le_INR := count_size (fun dt => predicted m dt.1 == dt.2) seen.
  have := pos_INR (count (fun dt => predicted m dt.1 == dt.2) seen).
  move: (INR (count _ _)) (INR (size _)) => c t c_ge0 le_ct t_gt0.
  split.
    by apply: Rmult_le_pos => //; apply/Rlt_le/Rinv_0_lt_compat.
  have t_n0 : t <> 0%real by lra.
  rewrite -(Rinv_r t t_n0).
  by apply: Rmult_le_compat_r => //; apply/Rlt_le/Rinv_0_lt_compat.
- rewrite /= size_cat addn_eq0 -[size bt == 0]negbK -lt0n bt_n0 /=.
  by eexists.
Qed.

End TuneTheory.

(** ** The further properties on example inputs *)

Section FurtherExamples.

Local Open Scope string_scope.

Lemma get_param_grid_complete_witness :
  example_space != [::]
  /\ exists2 grid, get_param_grid example_space = Ok grid
       & forall e,
           e \in grid
           <-> exists2 v, all2 (fun x p => x \in p) v (unzip2 example_space)
                        & e = dict_of (zip (unzip1 example_space) v).
Proof.
split; first by [].
exact: (@get_param_grid_complete _ example_space isT).
Defined.

Lemma get_param_grid_uniq_witness :
  [/\ example_space != [::], uniq (unzip1 example_space),
      all uniq (unzip2 example_space)
    & exists2 grid, get_param_grid example_space = Ok grid & uniq grid].
Proof.
split; [by [] | by [] | by [] |].
exact: (@get_param_grid_uniq _ example_space isT isT isT).
Defined.

Lemma get_param_grid_keys_witness :
  [/\ uniq (unzip1 example_space),
      get_param_grid example_space
      = Ok [:: [:: ("a", 1); ("b", 10)]; [:: ("a", 1); ("b", 20)];
               [:: ("a", 2); ("b", 10)]; [:: ("a", 2); ("b", 20)]],
      [:: ("a", 2); ("b", 10)]
        \in [:: [:: ("a", 1); ("b", 10)]; [:: ("a", 1); ("b", 20)];
                [:: ("a", 2); ("b", 10)]; [:: ("a", 2); ("b", 20)]]
    & unzip1 [:: ("a", 2); ("b", 10)] = unzip1 example_space
      /\ all2 (fun x p => x \in p) (unzip2 [:: ("a", 2); ("b", 10)])
           (unzip2 example_space)].
Proof.
split; [by [] | by [] | by [] |].
exact: (@get_param_grid_keys _ example_space _ [:: ("a", 2); ("b", 10)] isT
          erefl isT).
Defined.

Lemma get_best_run_first_max_witness :
  [/\ irreflexive (fun x y : nat => y < x),
      transitive (fun x y : nat => y < x)
    & forall x y : nat, x != y -> (y < x) || (x < y)]
  /\ [/\ [:: 1; 3; 2; 3] != [::],
         size [:: 1; 3; 2; 3] <= size [:: "a"; "b"; "c"; "d"]
       & exists m best i,
           [/\ get_best_run (fun x y : nat => y < x) [:: 1; 3; 2; 3]
                 [:: "a"; "b"; "c"; "d"] false
               = Ok (m, best),
               {in [:: 1; 3; 2; 3], forall x, ~~ (m < x)},
               i < size [:: 1; 3; 2; 3] /\ nth m [:: 1; 3; 2; 3] i = m,
               forall j, j < i -> nth m [:: 1; 3; 2; 3] j < m
             & forall e0, nth e0 [:: "a"; "b"; "c"; "d"] i = best]].
Proof.
have gt_irr : irreflexive (fun x y : nat => y < x) by move=> x; rewrite ltnn.
have gt_trans : transitive (fun x y : nat => y < x).
  by move=> y x z gt_xy gt_yz; apply: ltn_trans gt_yz gt_xy.
have gt_total : forall x y : nat, x != y -> (y < x) || (x < y).
  by move=> x y; rewrite neq_ltn orbC.
split; first by split.
split; [by [] | by [] |].
exact: (@get_best_run_first_max _ (fun x y : nat => y < x) _ gt_irr gt_trans
          gt_total [:: 1; 3; 2; 3] [:: "a"; "b"; "c"; "d"] false isT isT).
Defined.

Lemma train_loss_history_witness :
  [/\ (0 < 2)%int, prints_safely false 1000
    & [/\ (train counting_step 0 2 [:: 1; 2; 3] [:: 0; 1; 0] 2 false 1000).2
          = None,
          size (t_loss_hist
                  (train counting_step 0 2 [:: 1; 2; 3] [:: 0; 1; 0] 2 false
                     1000).1)
          = Z.to_nat 2 * ((size [:: 1; 2; 3] + Z.to_nat 2 - 1) %/ Z.to_nat 2)
        & false = false ->
          t_printed
            (train counting_step 0 2 [:: 1; 2; 3] [:: 0; 1; 0] 2 false 1000).1
          = [::]]].
Proof.
split; [by [] | by left |].
exact: (@train_loss_history _ _ _ counting_step 0 2 [:: 1; 2; 3]
          [:: 0; 1; 0] 2 false 1000 erefl (or_introl erefl)).
Defined.

Lemma train_batches_witness :
  [/\ (0 < 2)%int, prints_safely false 1000
    & [/\ t_net
            (train counting_step 0 2 [:: 1; 2; 3] [:: 0; 1; 0] 2 false 1000).1
          = iter (Z.to_nat 2)
              (foldl (fun nt bt => (counting_step nt bt.1 bt.2).1)
                 ^~ (zip (batches (size [:: 1; 2; 3]) (Z.to_nat 2) [:: 1; 2; 3])
                       (batches (size [:: 1; 2; 3]) (Z.to_nat 2)
                          [:: 0; 1; 0])))
              0,
          flatten (batches (size [:: 1; 2; 3]) (Z.to_nat 2) [:: 1; 2; 3])
          = [:: 1; 2; 3],
          all (fun bt => 0 < size bt <= Z.to_nat 2)
            (batches (size [:: 1; 2; 3]) (Z.to_nat 2) [:: 1; 2; 3])
        & size [:: 0; 1; 0] = size [:: 1; 2; 3] ->
          flatten (batches (size [:: 1; 2; 3]) (Z.to_nat 2) [:: 0; 1; 0])
          = [:: 0; 1; 0]]].
Proof.
split; [by [] | by left |].
exact: (@train_batches _ _ _ counting_step 0 2 [:: 1; 2; 3] [:: 0; 1; 0] 2
          false 1000 erefl (or_introl erefl)).
Defined.


Lemma train_zero_iterations_witness :
  [/\ (0 < 2)%int, (0 < 1)%int, 0 < size [:: 1; 2; 3]
    & train counting_step 0 2 [:: 1; 2; 3] [:: 0; 1; 0] 1 true 0
      = (Trained
           (counting_step 0 (take (Z.to_nat 2) [:: 1; 2; 3])
              (take (Z.to_nat 2) [:: 0; 1; 0])).1
           [:: (counting_step 0 (take (Z.to_nat 2) [:: 1; 2; 3])
                  (take (Z.to_nat 2) [:: 0; 1; 0])).2]
           [::],
         Some ZeroDivisionError)].
Proof.
split; [by [] | by [] | by [] |].
exact: (@train_zero_iterations _ _ _ counting_step 0 2 [:: 1; 2; 3]
          [:: 0; 1; 0] 1 erefl erefl isT).
Defined.

Lemma get_random_grid_stream_witness :
  [/\ example_space != [::], all (fun kv => kv.2 != [::]) example_space
    & exists (grid : seq (experiment nat)) (pick : N -> experiment nat),
        [/\ get_param_grid example_space = Ok grid,
            forall m, pick m \in grid
          & forall (n : Z) (g : rng), (- 2 ^ 63 <= n < 2 ^ 63)%int ->
            get_random_grid example_space n g
            = (Ok [seq pick (rng_stream g (rng_pos g + i))
                  | i <- iota 0 (Z.to_nat n)],
               Rng (rng_stream g) (rng_pos g + Z.to_nat n))]].
Proof.
split; [by [] | by [] |].
exact: (@get_random_grid_stream _ example_space isT isT).
Defined.

Lemma get_random_grid_empty_values_witness :
  [/\ has (fun kv => kv.2 == [::]) [:: ("a", [:: 1; 2]); ("b", [::])],
      (- 2 ^ 63 <= 1 < 2 ^ 63)%int
    & get_random_grid [:: ("a", [:: 1; 2]); ("b", [::])] 1 example_rng
      = if (0 <? 1)%int then (Raise IndexError, (random example_rng).2)
        else (Ok [::], example_rng)].
Proof.
have in_range : (- 2 ^ 63 <= 1 < 2 ^ 63)%int by [].
split; [by [] | by [] |].
exact: (@get_random_grid_empty_values _ [:: ("a", [:: 1; 2]); ("b", [::])] 1
          example_rng isT in_range).
Defined.

Lemma get_random_grid_reaches_witness :
  [/\ get_param_grid example_space
      = Ok [:: [:: ("a", 1); ("b", 10)]; [:: ("a", 1); ("b", 20)];
               [:: ("a", 2); ("b", 10)]; [:: ("a", 2); ("b", 20)]],
      (N.of_nat
         (size [:: [:: ("a", 1); ("b", 10)]; [:: ("a", 1); ("b", 20)];
                   [:: ("a", 2); ("b", 10)]; [:: ("a", 2); ("b", 20)]])
       <= 2 ^ 53)%num,
      [:: ("a", 2); ("b", 10)]
        \in [:: [:: ("a", 1); ("b", 10)]; [:: ("a", 1); ("b", 20)];
                [:: ("a", 2); ("b", 10)]; [:: ("a", 2); ("b", 20)]]
    & exists g,
        (get_random_grid example_space 1 g).1 = Ok [:: [:: ("a", 2); ("b", 10)]]].
Proof.
have le_sz :
  (N.of_nat
     (size [:: [:: ("a", 1); ("b", 10)]; [:: ("a", 1); ("b", 20)];
               [:: ("a", 2); ("b", 10)]; [:: ("a", 2); ("b", 20)]])
   <= 2 ^ 53)%num by [].
split; [by [] | by [] | by [] |].
exact: (@get_random_grid_reaches _ example_space _ [:: ("a", 2); ("b", 10)]
          erefl le_sz isT).
Defined.

Lemma load_mnist_partition_witness :
  [/\ (0 <= 0.8 <= 1)%real, perm_eq [:: 2; 0; 1] (iota 0 (size [:: 10; 11; 12])),
      size [:: 0; 1; 0] = size [:: 10; 11; 12]
    & exists r,
        [/\ load_mnist exact_int_scaled 0.8 true [:: 10; 11; 12] [:: 0; 1; 0]
              [:: 13] [:: 1] [:: 2; 0; 1]
            = inl r,
            perm_eq (zip (m_train_X r) (m_train_y r)
                     ++ zip (m_valid_X r) (m_valid_y r))
              (zip [:: 10; 11; 12] [:: 0; 1; 0]),
            size (m_train_X r)
            = minn (exact_int_scaled (size [:: 10; 11; 12]) 0.8)
                (size [:: 10; 11; 12])
            /\ size (m_train_y r) = size (m_train_X r),
            size (m_valid_X r) = size [:: 10; 11; 12] - size (m_train_X r)
            /\ size (m_valid_y r) = size (m_valid_X r)
          & m_test_X r = [:: 13] /\ m_test_y r = [:: 1]]].
Proof.
have in01 : (0 <= 0.8 <= 1)%real by split; lra.
split; [by [] | by [] | by [] |].
exact: (@load_mnist_partition _ _ exact_int_scaled 0.8%real true
          [:: 10; 11; 12] [:: 0; 1; 0] [:: 13] [:: 1] [:: 2; 0; 1] in01 isT
          erefl).
Defined.

Lemma load_mnist_short_labels_witness :
  [/\ (0 <= 0.8 <= 1)%real, perm_eq [:: 2; 0; 1] (iota 0 (size [:: 10; 11; 12])),
      size [:: 0; 1] < size [:: 10; 11; 12]
    & load_mnist exact_int_scaled 0.8 true [:: 10; 11; 12] [:: 0; 1] [:: 13]
        [:: 1] [:: 2; 0; 1]
      = inr (Builtin IndexError)].
Proof.
have in01 : (0 <= 0.8 <= 1)%real by split; lra.
split; [by [] | by [] | by [] |].
exact: (@load_mnist_short_labels _ _ exact_int_scaled 0.8%real true
          [:: 10; 11; 12] [:: 0; 1] [:: 13] [:: 1] [:: 2; 0; 1] in01 isT isT).
Defined.

Lemma tune_train_batches_witness :
  [/\ 0 < 512,
      all (fun bt => size bt == 512)
        (take (Tune.EPOCH_SIZE %/ 512).+2 example_loader)
    & Tune.train counting_batch_step 0 example_loader
      = foldl counting_batch_step 0
          (take (Tune.EPOCH_SIZE %/ 512).+1 example_loader)
      /\ (Tune.EPOCH_SIZE %/ 512 < size example_loader ->
          Tune.EPOCH_SIZE
          < size (flatten (take (Tune.EPOCH_SIZE %/ 512).+1 example_loader))
          <= Tune.EPOCH_SIZE + 512)].
Proof.
have all_b : all (fun bt => size bt == 512)
               (take (Tune.EPOCH_SIZE %/ 512).+2 example_loader).
  by vm_compute.
split; [by [] | by [] |].
exact: (@tune_train_batches _ _ _ counting_batch_step 512 example_loader 0
          isT all_b).
Defined.

Lemma tune_test_accuracy_witness :
  [/\ 0 < 512, 0 < size example_loader,
      all (fun bt => size bt == 512)
        (take (Tune.TEST_SIZE %/ 512).+2 example_loader)
    & Tune.test echo_class 0 example_loader
      = inl (INR (count (fun dt => echo_class 0 dt.1 == dt.2)
                    (flatten (take (Tune.TEST_SIZE %/ 512).+1 example_loader)))
             / INR (size (flatten (take (Tune.TEST_SIZE %/ 512).+1
                                     example_loader))))%real].
Proof.
have all_b : all (fun bt => size bt == 512)
               (take (Tune.TEST_SIZE %/ 512).+2 example_loader).
  by vm_compute.
split; [by [] | by [] | by [] |].
exact: (@tune_test_accuracy _ _ _ echo_class 512 example_loader 0 isT isT
          all_b).
Defined.

End FurtherExamples.

Section FurtherConditioningExamples.

Local Open Scope ring_scope.


End FurtherConditioningExamples.
